(** * MBVST: iterative ILP with reconnection repair

    A shallow embedding of [ilp_updated.py] (scored reconnection) and
    [ilp_solver.py] (random reconnection), and the properties of the
    solve loop [resoudre_mbvst] and of the model built by
    [resoudre_ilp_iteration].

    Layout:
    - [Nx]   : the part of the networkx [Graph] class the code relies on
               (insertion-ordered adjacency, edge enumeration, degree,
               breadth-first connectivity);
    - [Pulp] : linear expressions, constraints and problems as the code
               hands them to the solver;
    - the functions of the source files, with the external collaborators
      (MILP solver, [nx.bridges], [nx.cycle_basis], [random.sample]) as
      section variables;
    - [Fichiers] : the instance files read and the solution files
      written, as lists of lines, and the treatment of one file by the
      main loop;
    - the theorems. *)

From Stdlib Require Import ZArith List Bool Lia Permutation Sorted.
From Stdlib Require String Ascii DecimalString.
Import ListNotations.
Open Scope Z_scope.

(* ===================================================================== *)
(** * Python exceptions *)
(* ===================================================================== *)

Inductive exn : Type :=
| KeyError                  (* [d[k]] on a missing key *)
| StopIteration             (* [next(gen)] on an exhausted generator *)
| NetworkXPointlessConcept. (* [nx.is_connected] on the null graph *)

Inductive result (A : Type) : Type :=
| Ok (a : A)
| Raise (e : exn).
Arguments Ok {A} a.
Arguments Raise {A} e.

Definition bind {A B} (r : result A) (k : A -> result B) : result B :=
  match r with
  | Ok a => k a
  | Raise e => Raise e
  end.

Notation "x <- c ;; k" := (bind c (fun x => k))
  (at level 61, c at next level, right associativity).

Fixpoint mapM {A B} (f : A -> result B) (l : list A) : result (list B) :=
  match l with
  | [] => Ok []
  | a :: l' => b <- f a ;; bs <- mapM f l' ;; Ok (b :: bs)
  end.

(* ===================================================================== *)
(** * networkx graphs *)
(* ===================================================================== *)

Module Nx.

Definition node := Z.
Definition edge := (node * node)%type.

(** [Graph._adj]: a dict from node to the dict of its neighbours.  Both
    dicts iterate in insertion order, which fixes the order of
    [G.nodes()] and [G.edges()]. *)
Definition Graph := list (node * list node).

Definition mem_node (v : node) (l : list node) : bool := existsb (Z.eqb v) l.

Definition edge_eqb (e f : edge) : bool :=
  (fst e =? fst f) && (snd e =? snd f).

Definition mem_edge (e : edge) (l : list edge) : bool := existsb (edge_eqb e) l.

Definition empty : Graph := [].

Definition nodes (G : Graph) : list node := map fst G.

(** [G._adj[v]] as a list of neighbours; the empty list when [v] is not a
    node (Python would raise, the callers below only ask for nodes). *)
Fixpoint adj (G : Graph) (v : node) : list node :=
  match G with
  | [] => []
  | (k, nbrs) :: G' => if k =? v then nbrs else adj G' v
  end.

Definition has_edge (G : Graph) (u v : node) : bool := mem_node v (adj G u).

Definition number_of_nodes (G : Graph) : Z := Z.of_nat (length G).

(** A self-loop counts twice. *)
Definition degree (G : Graph) (v : node) : Z :=
  Z.of_nat (length (adj G v)) + (if mem_node v (adj G v) then 1 else 0).

Definition sum_Z (l : list Z) : Z := fold_right Z.add 0 l.

(** The same count on one item of the adjacency dict. *)
Definition degree_entry (kn : node * list node) : Z :=
  Z.of_nat (length (snd kn)) + (if mem_node (fst kn) (snd kn) then 1 else 0).

Definition total_degree (G : Graph) : Z := sum_Z (map (degree G) (nodes G)).

(** [G.size()]: half the sum of the degrees. *)
Definition number_of_edges (G : Graph) : Z := total_degree G / 2.

Definition add_node (G : Graph) (n : node) : Graph :=
  if mem_node n (nodes G) then G else G ++ [(n, [])].

Definition add_nodes_from (G : Graph) (ns : list node) : Graph :=
  fold_left add_node ns G.

(** [d[v] = {}] on the keys of a dict: a new key goes last, an old one
    keeps its place. *)
Definition with_key (v : node) (l : list node) : list node :=
  if mem_node v l then l else l ++ [v].

(** [G._adj[u][v] = {}] *)
Definition add_nbr (G : Graph) (u v : node) : Graph :=
  map (fun kn : node * list node =>
         if fst kn =? u then (fst kn, with_key v (snd kn)) else kn) G.

Definition add_edge (G : Graph) (u v : node) : Graph :=
  add_nbr (add_nbr (add_node (add_node G u) v) u v) v u.

Definition add_edges_from (G : Graph) (es : list edge) : Graph :=
  fold_left (fun g e => add_edge g (fst e) (snd e)) es G.

(** [EdgeView.__iter__]: for every node [n] in order and every neighbour
    [nbr] of [n] in order, [(n, nbr)] is reported unless [nbr] is a node
    already done. *)
Fixpoint edges_from (seen : list node) (G : Graph) : list edge :=
  match G with
  | [] => []
  | (n, nbrs) :: G' =>
      map (pair n) (filter (fun nbr => negb (mem_node nbr seen)) nbrs)
      ++ edges_from (n :: seen) G'
  end.

Definition edges (G : Graph) : list edge := edges_from [] G.

(** ** Breadth-first search ([_plain_bfs]) *)

Definition visit (acc : list node * list node) (w : node)
  : list node * list node :=
  if mem_node w (fst acc) then acc else (fst acc ++ [w], snd acc ++ [w]).

(** One round of the outer [while]: every node of [thislevel] has its
    neighbours visited. *)
Definition scan_level (G : Graph) (seen thislevel : list node)
  : list node * list node :=
  fold_left (fun acc v => fold_left visit (adj G v) acc) thislevel (seen, []).

Fixpoint plain_bfs_loop (fuel : nat) (G : Graph) (seen nextlevel : list node)
  : list node :=
  match fuel with
  | O => seen
  | S fuel' =>
      match nextlevel with
      | [] => seen
      | _ :: _ =>
          let sn := scan_level G seen nextlevel in
          plain_bfs_loop fuel' G (fst sn) (snd sn)
      end
  end.

(** The loop runs at most once per node: every productive round finds a
    new node. *)
Definition plain_bfs (G : Graph) (source : node) : list node :=
  plain_bfs_loop (length G) G [source] [source].

(** [nx.is_connected] *)
Definition is_connected (G : Graph) : result bool :=
  match nodes G with
  | [] => Raise NetworkXPointlessConcept
  | v0 :: _ => Ok (Nat.eqb (length (plain_bfs G v0)) (length G))
  end.

(** [nx.connected_components], in the order of the first node of each. *)
Fixpoint components_loop (G : Graph) (vs seen : list node) : list (list node) :=
  match vs with
  | [] => []
  | v :: vs' =>
      if mem_node v seen then components_loop G vs' seen
      else let c := plain_bfs G v in c :: components_loop G vs' (seen ++ c)
  end.

Definition connected_components (G : Graph) : list (list node) :=
  components_loop G (nodes G) [].

(** ** Well-formed graphs

    What the [Graph] class maintains: nodes are unique dict keys, so are
    the neighbours of a node, neighbours are nodes, and adjacency is
    symmetric. *)
Record wf (G : Graph) : Prop := {
  wf_nodes : NoDup (nodes G);
  wf_nbrs : forall v, NoDup (adj G v);
  wf_closed : forall u v, In v (adj G u) -> In v (nodes G);
  wf_sym : forall u v, In v (adj G u) -> In u (adj G v)
}.

(** Undirected reachability. *)
Inductive path (G : Graph) (u : node) : node -> Prop :=
| path_refl : path G u u
| path_step : forall v w, path G u v -> In w (adj G v) -> path G u w.

Definition connected (G : Graph) : Prop :=
  forall u v, In u (nodes G) -> In v (nodes G) -> path G u v.

(** What the search keeps true of its [seen] set. *)
Definition bfs_inv (G : Graph) (source : node) (seen : list node) : Prop :=
  NoDup seen /\ forall w, In w seen -> path G source w.

(** How visits change the pair [(seen, nextlevel)]: nothing is lost, and
    what is new in [seen] is new in [nextlevel] too. *)
Definition extends (acc acc' : list node * list node) : Prop :=
  incl (fst acc) (fst acc') /\ incl (snd acc) (snd acc') /\
  (forall w, In w (fst acc') -> In w (fst acc) \/ In w (snd acc')) /\
  (length (fst acc') + length (snd acc) = length (fst acc) + length (snd acc'))%nat.

(** The nodes already scanned have all their neighbours in [seen]. *)
Definition closed_but (G : Graph) (seen nextlevel : list node) : Prop :=
  forall v, In v seen -> ~ In v nextlevel ->
  forall w, In w (adj G v) -> In w seen.

End Nx.

(* ===================================================================== *)
(** * pulp problems *)
(* ===================================================================== *)

Module Pulp.

(** The two families of [LpVariable]s of the model: [x_u_v] for an edge
    and [y_v] for a node. *)
Inductive var : Type :=
| X (e : Nx.edge)
| Y (v : Nx.node).

Record LpAffineExpression : Type := {
  terms : list (Z * var);
  constant : Z
}.

Inductive sense : Type := LE | EQ.

Record LpConstraint : Type := {
  lhs : LpAffineExpression;
  csense : sense;
  rhs : LpAffineExpression
}.

Inductive direction : Type := LpMinimize | LpMaximize.

Record LpProblem : Type := {
  direction_of : direction;
  binaries : list var;          (* the variables declared [LpBinary] *)
  objective : LpAffineExpression;
  constraints : list LpConstraint
}.

Definition lpSum (vs : list var) : LpAffineExpression :=
  {| terms := map (pair 1) vs; constant := 0 |}.

Definition const (c : Z) : LpAffineExpression :=
  {| terms := []; constant := c |}.

Definition single (v : var) : LpAffineExpression :=
  {| terms := [(1, v)]; constant := 0 |}.

Definition le (a b : LpAffineExpression) : LpConstraint :=
  {| lhs := a; csense := LE; rhs := b |}.

Definition eq (a b : LpAffineExpression) : LpConstraint :=
  {| lhs := a; csense := EQ; rhs := b |}.

(** Value of an expression under an assignment. *)
Definition value (a : var -> Z) (e : LpAffineExpression) : Z :=
  Nx.sum_Z (map (fun t => fst t * a (snd t)) (terms e)) + constant e.

Definition satisfies (a : var -> Z) (c : LpConstraint) : bool :=
  match csense c with
  | LE => value a (lhs c) <=? value a (rhs c)
  | EQ => value a (lhs c) =? value a (rhs c)
  end.

Definition feasible (a : var -> Z) (P : LpProblem) : Prop :=
  (forall v, In v (binaries P) -> a v = 0 \/ a v = 1) /\
  (forall c, In c (constraints P) -> satisfies a c = true).

(** The same, as a check. *)
Definition feasibleb (a : var -> Z) (P : LpProblem) : bool :=
  forallb (fun v => (a v =? 0) || (a v =? 1)) (binaries P)
  && forallb (satisfies a) (constraints P).

End Pulp.

Import Nx Pulp.

(* ===================================================================== *)
(** * The source files *)
(* ===================================================================== *)

Record Partitions : Type := {
  V01 : list node;
  V2 : list node;
  V3 : list node
}.

(** [tuple(sorted(e))] on a pair. *)
Definition sorted_pair (e : edge) : edge :=
  (Z.min (fst e) (snd e), Z.max (fst e) (snd e)).

Definition edge_eq_dec (e f : edge) : {e = f} + {e <> f}.
Proof. decide equality; apply Z.eq_dec. Defined.

(** [l[:k]] *)
Definition slice_to {A} (l : list A) (k : Z) : list A :=
  if k <? 0 then firstn (length l - Z.to_nat (- k)) l
  else firstn (Z.to_nat k) l.

(** [list.sort(key=...)] is stable; insertion from the right is the
    reference stable sort. *)
Fixpoint insert_by (key : edge -> Z) (e : edge) (l : list edge) : list edge :=
  match l with
  | [] => [e]
  | f :: l' => if key e <=? key f then e :: l else f :: insert_by key e l'
  end.

Definition sort_by (key : edge -> Z) (l : list edge) : list edge :=
  fold_right (insert_by key) [] l.

(** [next(i for i, c in enumerate(composantes) if v in c)] *)
Fixpoint index_of (v : node) (composantes : list (list node)) (i : nat)
  : result nat :=
  match composantes with
  | [] => Raise StopIteration
  | c :: cs => if mem_node v c then Ok i else index_of v cs (S i)
  end.

(** The [for u, v in G_initial.edges()] loop that fills [candidates]. *)
Fixpoint candidats (es : list edge) (composantes : list (list node))
  : result (list edge) :=
  match es with
  | [] => Ok []
  | e :: es' =>
      c_u <- index_of (fst e) composantes 0 ;;
      c_v <- index_of (snd e) composantes 0 ;;
      rest <- candidats es' composantes ;;
      Ok (if Nat.eqb c_u c_v then rest else sorted_pair e :: rest)
  end.

(** The test [c_u != c_v] of that loop. *)
Definition composantes_differentes (composantes : list (list node)) (e : edge)
  : bool :=
  match index_of (fst e) composantes 0, index_of (snd e) composantes 0 with
  | Ok c_u, Ok c_v => negb (Nat.eqb c_u c_v)
  | _, _ => false
  end.

Definition score_arete (T : Graph) (e : edge) : Z :=
  degree T (fst e) + degree T (snd e).

(** The edges of a cycle given by its nodes:
    [(cycle[i], cycle[(i + 1) % len(cycle)])], sorted. *)
Definition aretes_du_cycle (cycle : list node) : list edge :=
  map (fun i => sorted_pair (nth i cycle 0,
                             nth ((i + 1) mod length cycle) cycle 0))
      (seq 0 (length cycle)).

(** State of the [while True] loop of [resoudre_mbvst]. *)
Record etat : Type := {
  edges_forcees : list edge;
  n_quota : Z;
  iteration : nat
}.

(** What one turn of the loop does: [return] or go round again. *)
Inductive pas : Type :=
| Retour (r : option Graph)
| Suite (s : etat).

Section Source.

(** The external collaborators. *)

(** [prob.solve(solver)] at the k-th call: the status and the values of
    the variables. *)
Variable solver : nat -> LpProblem -> Z * (var -> Z).
Variable nx_bridges : Graph -> list edge.
Variable nx_cycle_basis : Graph -> list (list node).

Definition analyser_structure (G : Graph) : list edge * Partitions :=
  let ponts := nx_bridges G in
  let partitions :=
    fold_left
      (fun p v =>
         if degree G v <=? 2
         then {| V01 := V01 p ++ [v]; V2 := V2 p; V3 := V3 p |}
         else {| V01 := V01 p; V2 := V2 p ++ [v]; V3 := V3 p |})
      (nodes G) {| V01 := []; V2 := []; V3 := [] |} in
  (ponts, partitions).

Definition all_edges (G : Graph) : list edge := map sorted_pair (edges G).

(** [x[e]] *)
Definition x (G : Graph) (e : edge) : result var :=
  if mem_edge e (all_edges G) then Ok (X e) else Raise KeyError.

(** The constraint of one cycle of the basis. *)
Definition contrainte_cycle (G : Graph) (cycle : list node)
  : result LpConstraint :=
  let aretes := aretes_du_cycle cycle in
  xs <- mapM (x G) aretes ;;
  Ok (le (lpSum xs) (const (Z.of_nat (length aretes) - 1))).

(** The degree constraint of one node. *)
Definition contrainte_degre (G : Graph) (partitions : Partitions) (i : node)
  : LpConstraint :=
  let incidentes :=
    filter (fun e => (fst e =? i) || (snd e =? i)) (all_edges G) in
  if mem_node i (V2 partitions) then
    le (lpSum (map X incidentes))
       {| terms := [(degree G i - 2, Y i)]; constant := 2 |}
  else if mem_node i (V01 partitions) then
    le (lpSum (map X incidentes)) (const 2)
  else
    le (lpSum (map X incidentes)) (const (degree G i)).

(** [prob] as it stands when [prob.solve] is called.  The iteration order
    of [set(ponts + edges_forcees)] is not specified by Python; the model
    takes the order of [nodup]. *)
Definition modele (G : Graph) (partitions : Partitions)
    (ponts edges_forcees : list edge) : result LpProblem :=
  let c1 := eq (lpSum (map X (all_edges G)))
               (const (number_of_nodes G - 1)) in
  c4 <- mapM (contrainte_cycle G) (nx_cycle_basis G) ;;
  let c2 :=
    map (fun e => eq (single (X (sorted_pair e))) (const 1))
        (filter (fun e => mem_edge (sorted_pair e) (all_edges G))
                (nodup edge_eq_dec (ponts ++ edges_forcees))) in
  let c56 := map (contrainte_degre G partitions) (nodes G) in
  Ok {| direction_of := LpMinimize;
        binaries := map X (all_edges G) ++ map Y (V2 partitions);
        objective := lpSum (map Y (V2 partitions));
        constraints := c1 :: c4 ++ c2 ++ c56 |}.

Definition resoudre_ilp_iteration (k : nat) (G : Graph)
    (partitions : Partitions) (ponts edges_forcees : list edge)
  : result (option (list edge)) :=
  prob <- modele G partitions ponts edges_forcees ;;
  let status := fst (solver k prob) in
  let valeur := snd (solver k prob) in
  if status =? 1
  then Ok (Some (filter (fun e => valeur (X e) =? 1) (all_edges G)))
  else Ok None.

(** The graph [T] built from a solution. *)
Definition arbre (G : Graph) (sol_edges : list edge) : Graph :=
  add_edges_from (add_nodes_from empty (nodes G)) sol_edges.

Section Boucle.

(** How the new forced edges are drawn from the candidates: iteration,
    tree, candidates, sample size. *)
Variable choisir : nat -> Graph -> list edge -> Z -> list edge.

Variable G_initial : Graph.
Variable ponts : list edge.
Variable partitions : Partitions.

(** One turn of [while True]. *)
Definition tour (s : etat) : result pas :=
  let iteration := S (iteration s) in
  sol <- resoudre_ilp_iteration iteration G_initial partitions ponts
           (edges_forcees s) ;;
  match sol with
  | None | Some [] => Ok (Retour None)
  | Some sol_edges =>
      let T := arbre G_initial sol_edges in
      connexe <- is_connected T ;;
      if connexe : bool then Ok (Retour (Some T))
      else
        let composantes := connected_components T in
        candidates <- candidats (edges G_initial) composantes ;;
        let edges_forcees' :=
          match candidates with
          | [] => edges_forcees s
          | _ :: _ =>
              let sample_size :=
                Z.min (Z.of_nat (length candidates)) (n_quota s) in
              edges_forcees s ++ choisir iteration T candidates sample_size
          end in
        let n_quota' :=
          if n_quota s >? 1 then n_quota s - 1 else n_quota s in
        Ok (Suite {| edges_forcees := edges_forcees';
                     n_quota := n_quota';
                     iteration := iteration |})
  end.

(** The loop, with a bound on the number of turns; [None] when the bound
    is reached before a [return]. *)
Fixpoint boucle (fuel : nat) (s : etat) : option (result (option Graph)) :=
  match fuel with
  | O => None
  | S fuel' =>
      match tour s with
      | Raise e => Some (Raise e)
      | Ok (Retour r) => Some (Ok r)
      | Ok (Suite s') => boucle fuel' s'
      end
  end.

(** The state after [i] full turns, when the loop gets that far. *)
Fixpoint etat_apres (i : nat) (s0 : etat) : option etat :=
  match i with
  | O => Some s0
  | S i' =>
      match etat_apres i' s0 with
      | Some s =>
          match tour s with
          | Ok (Suite s') => Some s'
          | _ => None
          end
      | None => None
      end
  end.

End Boucle.

(** [int(n ** 0.5 / 2)]: the integer part of half the square root; on
    node counts the float computation gives the integer square root
    halved. *)
Definition quota_initial (G : Graph) : Z :=
  Z.max 1 (Z.sqrt (number_of_nodes G) / 2).

Definition etat_initial (G : Graph) : etat :=
  {| edges_forcees := []; n_quota := quota_initial G; iteration := 0 |}.

(** [ilp_updated.py]: the candidates of lowest score. *)
Definition choisir_score (_ : nat) (T : Graph) (candidates : list edge)
    (sample_size : Z) : list edge :=
  slice_to (sort_by (score_arete T) candidates) sample_size.

(** [ilp_solver.py]: [random.sample(candidates, sample_size)], the draw
    of each iteration being given. *)
Definition choisir_hasard (random_sample : nat -> list edge -> Z -> list edge)
    (k : nat) (_ : Graph) (candidates : list edge) (sample_size : Z)
  : list edge :=
  random_sample k candidates sample_size.

Definition resoudre_mbvst_avec
    (choisir : nat -> Graph -> list edge -> Z -> list edge)
    (fuel : nat) (G_initial : Graph) : option (result (option Graph)) :=
  let pp := analyser_structure G_initial in
  boucle choisir G_initial (fst pp) (snd pp) fuel (etat_initial G_initial).

(** The state in which turn [i + 1] of [resoudre_mbvst] starts. *)
Definition etat_iteration
    (choisir : nat -> Graph -> list edge -> Z -> list edge)
    (G_initial : Graph) (i : nat) : option etat :=
  let pp := analyser_structure G_initial in
  etat_apres choisir G_initial (fst pp) (snd pp) i (etat_initial G_initial).

(** [sol] is the candidate solution of turn [i + 1]. *)
Definition candidat_iteration
    (choisir : nat -> Graph -> list edge -> Z -> list edge)
    (G_initial : Graph) (i : nat) (sol : list edge) : Prop :=
  let pp := analyser_structure G_initial in
  exists s, etat_iteration choisir G_initial i = Some s /\
    resoudre_ilp_iteration (S (iteration s)) G_initial (snd pp) (fst pp)
      (edges_forcees s) = Ok (Some sol).

(** The solver keeps its contract: status 1 (optimal) comes with an
    assignment that satisfies the model. *)
Definition solveur_fiable : Prop :=
  forall k P, fst (solver k P) = 1 -> feasible (snd (solver k P)) P.

(** [resoudre_mbvst] of [ilp_updated.py]. *)
Definition resoudre_mbvst (fuel : nat) (G_initial : Graph) :=
  resoudre_mbvst_avec choisir_score fuel G_initial.

(** [resoudre_mbvst] of [ilp_solver.py]. *)
Definition resoudre_mbvst_hasard
    (random_sample : nat -> list edge -> Z -> list edge)
    (fuel : nat) (G_initial : Graph) :=
  resoudre_mbvst_avec (choisir_hasard random_sample) fuel G_initial.

End Source.

(** How many of the edges [aretes] are in the solution [sol]. *)
Definition nb_aretes_dans (sol aretes : list edge) : Z :=
  Z.of_nat (length (filter (fun e => mem_edge e sol) aretes)).

(** A solver for tests: it proposes one assignment and reports it optimal
    when it satisfies the model. *)
Definition solveur_propose (valeur : nat -> var -> Z) (k : nat) (P : LpProblem)
  : Z * (var -> Z) :=
  if feasibleb (valeur k) P then (1, valeur k) else (0, valeur k).

(* ===================================================================== *)
(** * Scenarios *)
(* ===================================================================== *)

(** A triangle 1-2-3 with the pendant edge 3-4, loaded as
    [charger_graphe_depuis_txt] does: the nodes first, then the edges. *)
Definition G_triangle : Graph :=
  add_edges_from (add_nodes_from empty [1; 2; 3; 4])
    [(1, 2); (2, 3); (1, 3); (3, 4)].

Definition ponts_triangle (_ : Graph) : list edge := [(3, 4)].

Definition cycles_triangle (_ : Graph) : list (list node) := [[1; 2; 3]].

(** The path 1-2-3-4. *)
Definition valeur_chemin (_ : nat) (v : var) : Z :=
  match v with
  | X (1, 2) | X (2, 3) | X (3, 4) => 1
  | _ => 0
  end.

Definition valeur_nulle (_ : nat) (_ : var) : Z := 0.

(** Two triangles 1-2-3 and 2-3-4 on a common edge, and a node 5 joined
    to 1 and 4: no bridge, three independent cycles. *)
Definition G_theta : Graph :=
  add_edges_from (add_nodes_from empty [1; 2; 3; 4; 5])
    [(1, 2); (2, 3); (1, 3); (2, 4); (3, 4); (4, 5); (1, 5)].

Definition ponts_theta (_ : Graph) : list edge := [].

Definition cycles_theta (_ : Graph) : list (list node) :=
  [[1; 2; 3]; [2; 3; 4]; [1; 3; 4; 5]].

(** First the square 1-2-4-3, which satisfies the model and leaves 5
    alone; then the path 5-1-2-4-3. *)
Definition valeur_theta (k : nat) (v : var) : Z :=
  match k with
  | 1%nat =>
      match v with
      | X (1, 2) | X (1, 3) | X (2, 4) | X (3, 4) => 1
      | _ => 0
      end
  | _ =>
      match v with
      | X (1, 2) | X (1, 5) | X (2, 4) | X (3, 4) => 1
      | _ => 0
      end
  end.

Definition carre_theta : list edge := [(1, 2); (1, 3); (2, 4); (3, 4)].

Definition chemin_theta : list edge := [(1, 2); (1, 5); (2, 4); (3, 4)].

(** A draw for the random loop: the last candidates. *)
Definition tirage_fin (_ : nat) (candidates : list edge) (sample_size : Z)
  : list edge :=
  firstn (Z.to_nat sample_size) (rev candidates).

(** A single node. *)
Definition G_un : Graph := add_nodes_from empty [1].

Definition sans_cycle (_ : Graph) : list (list node) := [].

(** The model of the first turn on the triangle with a pendant edge. *)
Definition modele_triangle : LpProblem :=
  Eval vm_compute in
    match modele cycles_triangle G_triangle
            (snd (analyser_structure ponts_triangle G_triangle))
            [(3, 4)] [] with
    | Ok P => P
    | Raise _ =>
        {| direction_of := LpMinimize; binaries := [];
           objective := const 0; constraints := [] |}
    end.

(** The model of the only turn on the single node. *)
Definition modele_un : LpProblem :=
  Eval vm_compute in
    match modele sans_cycle G_un
            (snd (analyser_structure ponts_theta G_un)) [] [] with
    | Ok P => P
    | Raise _ =>
        {| direction_of := LpMinimize; binaries := [];
           objective := const 0; constraints := [] |}
    end.

(* ===================================================================== *)
(** * Further notions used to state properties of the loop *)
(* ===================================================================== *)

(** What a draw of [sample_size] candidates is expected to return
    ([candidates[:sample_size]] after a sort, or
    [random.sample(candidates, sample_size)]): that many distinct
    elements of the candidates. *)
Definition choix_valide
    (choisir : nat -> Graph -> list edge -> Z -> list edge) : Prop :=
  forall k T candidates sample_size,
    NoDup candidates ->
    0 <= sample_size <= Z.of_nat (length candidates) ->
    let l := choisir k T candidates sample_size in
    incl l candidates /\ NoDup l /\ length l = Z.to_nat sample_size.

(** A solver whose answer depends on the model only, not on the number of
    the call. *)
Definition solveur_sans_memoire
    (solver : nat -> LpProblem -> Z * (var -> Z)) : Prop :=
  forall k k' P, solver k P = solver k' P.

(** Every cycle of the basis runs along edges of the graph. *)
Definition base_dans_graphe
    (nx_cycle_basis : Graph -> list (list node)) (G : Graph) : Prop :=
  forall cycle e,
    In cycle (nx_cycle_basis G) -> In e (aretes_du_cycle cycle) ->
    In e (all_edges G).

(** [sum(1 for v in arbre_final.nodes() if arbre_final.degree(v) > 2)] *)
Definition nb_branch (T : Graph) : Z :=
  Z.of_nat (length (filter (fun v => degree T v >? 2) (nodes T))).


(** The forced edges are distinct edges of the graph. *)
Definition forcees_saines (G : Graph) (s : etat) : Prop :=
  NoDup (edges_forcees s) /\ incl (edges_forcees s) (all_edges G).

(** The graph of the first scenario pair without its fifth node joined:
    two triangles on a common edge, and the node 5 on its own. *)
Definition G_ile : Graph :=
  add_edges_from (add_nodes_from empty [1; 2; 3; 4; 5])
    [(1, 2); (2, 3); (1, 3); (2, 4); (3, 4)].

Definition cycles_ile (_ : Graph) : list (list node) :=
  [[1; 2; 3]; [2; 3; 4]].

(** The square 1-2-4-3 at every call. *)
Definition valeur_carre (_ : nat) (v : var) : Z :=
  match v with
  | X (1, 2) | X (1, 3) | X (2, 4) | X (3, 4) => 1
  | _ => 0
  end.

(** A basis that names the pair 1-4, which is not an edge of the
    triangle with a pendant edge. *)
Definition cycles_faux (_ : Graph) : list (list node) := [[1; 2; 3]; [1; 3; 4]].


(* ===================================================================== *)
(** * Graph files *)
(* ===================================================================== *)

Module Fichiers.

Import String.
Local Open Scope string_scope.

(** The exceptions of [charger_graphe_depuis_txt]. *)
Inductive erreur : Type :=
| IndexError    (* [l[0]] on an empty list *)
| ValueError.   (* [int(s)] on a string that is no number, or an unpacking
                   of the wrong number of values *)

Inductive lecture (A : Type) : Type :=
| Lu (a : A)
| Echec (e : erreur).
Arguments Lu {A} a.
Arguments Echec {A} e.

(** [f"{z}"] for an int: its decimal digits, after a minus sign when it
    is negative. *)
Definition str (z : Z) : string := DecimalString.NilZero.string_of_int (Z.to_int z).

Definition saut : string := String (Ascii.ascii_of_nat 10) EmptyString.

(** [f"{a} {b} 0\n"] *)
Definition ligne (a b : string) : string := a ++ " " ++ b ++ " 0" ++ saut.

(** [range(1, n + 1)] *)
Definition range1 (n : Z) : list Z := map Z.of_nat (seq 1 (Z.to_nat n)).

Definition est_vide (s : string) : bool :=
  match s with
  | EmptyString => true
  | String _ _ => false
  end.

Section Charger.

(** The string methods and the conversion the loader calls. *)
Variable split : string -> list string.   (* [s.split()] *)
Variable strip : string -> string.        (* [s.strip()] *)
Variable int : string -> option Z.        (* [int(s)], [None] for [ValueError] *)

(** The loop over [lignes[1:]]. *)
Fixpoint charger_aretes (lignes : list string) (G : Graph) : lecture Graph :=
  match lignes with
  | [] => Lu G
  | l :: reste =>
      if est_vide (strip l) then charger_aretes reste G
      else
        match split l with
        | [u; v; w] =>
            match int u with
            | None => Echec ValueError
            | Some u' =>
                match int v with
                | None => Echec ValueError
                | Some v' => charger_aretes reste (add_edge G u' v')
                end
            end
        | _ => Echec ValueError
        end
  end.

(** [charger_graphe_depuis_txt] on the lines [f.readlines()] gives. *)
Definition charger_graphe_depuis_txt (lignes : list string) : lecture Graph :=
  match lignes with
  | [] => Echec IndexError
  | premiere :: reste =>
      match split premiere with
      | [] => Echec IndexError
      | n :: _ =>
          match int n with
          | None => Echec ValueError
          | Some n_sommets =>
              charger_aretes reste (add_nodes_from empty (range1 n_sommets))
          end
      end
  end.

(** A line of [lignes[1:]] that is not blank holds the edge [a]-[b]. *)
Definition ligne_arete (l : string) (a b : node) : Prop :=
  est_vide (strip l) = false /\
  exists u v w, split l = [u; v; w] /\ int u = Some a /\ int v = Some b.

End Charger.

(** [sauvegarder_graphe]: the strings written, in order. *)
Definition sauvegarder_graphe (T : Graph) (n_sommets n_aretes : Z)
  : list string :=
  ligne (str n_sommets) (str n_aretes)
  :: map (fun e => ligne (str (fst e)) (str (snd e))) (edges T).

(** ** The body of the loop over the files of [__main__] *)

(** [if arbre_final:] on what [resoudre_mbvst] returns: [None] is false,
    and so is a graph without node ([Graph.__len__]). *)
Definition vrai (arbre_final : option Graph) : bool :=
  match arbre_final with
  | None => false
  | Some T => negb (Nat.eqb (List.length T) 0)
  end.

(** What is done for one file: a solution file is written and a number
    of branch vertices printed, or the failure of the resolution is
    printed, or an exception is caught and printed. *)
Inductive issue : Type :=
| Ecrit (fichier : list string) (nb_branch : Z)
| Echec_resolution
| Erreur.

Section Traiter.

Variable split : string -> list string.
Variable strip : string -> string.
Variable int : string -> option Z.
Variable solver : nat -> LpProblem -> Z * (var -> Z).
Variable nx_bridges : Graph -> list edge.
Variable nx_cycle_basis : Graph -> list (list node).

(** The [try] block, with a bound on the turns of the resolution;
    [None] when the bound is reached. *)
Definition traiter (fuel : nat) (lignes : list string) : option issue :=
  match charger_graphe_depuis_txt split strip int lignes with
  | Echec _ => Some Erreur
  | Lu G_test =>
      let n_sommets_init := number_of_nodes G_test in
      match resoudre_mbvst solver nx_bridges nx_cycle_basis fuel G_test with
      | None => None
      | Some (Raise _) => Some Erreur
      | Some (Ok arbre_final) =>
          if vrai arbre_final then
            match arbre_final with
            | Some T =>
                Some (Ecrit (sauvegarder_graphe T n_sommets_init
                               (number_of_edges T))
                            (nb_branch T))
            | None => Some Echec_resolution
            end
          else Some Echec_resolution
      end
  end.

End Traiter.

(** ** String functions to run the loader with *)

(** ASCII white space, as [str.isspace] has it. *)
Definition espace (c : Ascii.ascii) : bool :=
  let n := Ascii.nat_of_ascii c in
  ((9 <=? n) && (n <=? 13))%nat || ((28 <=? n) && (n <=? 32))%nat.

(** The words of a string. *)
Fixpoint mots (s : string) : list string :=
  match s with
  | EmptyString => []
  | String c s' =>
      if espace c then mots s'
      else
        match s' with
        | EmptyString => [String c EmptyString]
        | String c' _ =>
            if espace c' then String c EmptyString :: mots s'
            else
              match mots s' with
              | w :: ws => String c w :: ws
              | [] => [String c EmptyString]
              end
        end
  end.

(** Blank or not is all the loader asks of a stripped line. *)
Definition sans_blancs (s : string) : string :=
  match mots s with
  | [] => EmptyString
  | w :: _ => w
  end.

Definition entier (s : string) : option Z :=
  option_map Z.of_int (DecimalString.NilZero.int_of_string s).

(** ** Files to run the loader on *)

(** The graph of the theta scenario, with a blank line. *)
Definition fichier_theta : list string :=
  [ligne "5" "7"; ligne "1" "2"; ligne "2" "3"; ligne "1" "3"; saut;
   ligne "2" "4"; ligne "3" "4"; ligne "4" "5"; ligne "1" "5"].

(** A first line announcing two nodes, and an edge to a third. *)
Definition fichier_hors : list string :=
  [ligne "2" "1"; saut; ligne "1" "3"].

Definition G_hors : Graph := [(1, [3]); (2, []); (3, [1])].

End Fichiers.

(* ===================================================================== *)
(** * Facts about the graph model *)
(* ===================================================================== *)

Module NxFacts.

Lemma NoDup_snoc {A} (l : list A) (a : A) : NoDup l -> ~ In a l -> NoDup (l ++ [a]).
Proof.
  intros H Ha. apply NoDup_rev in H. rewrite <- (rev_involutive (l ++ [a])).
  apply NoDup_rev. rewrite rev_app_distr. simpl. constructor; [|assumption].
  now rewrite <- in_rev.
Qed.

Lemma NoDup_map_inj {A B} (f : A -> B) (l : list A) :
  (forall a b, In a l -> In b l -> f a = f b -> a = b) ->
  NoDup l -> NoDup (map f l).
Proof.
  induction l as [|a l IH]; simpl; intros Hinj H; [constructor|].
  inversion H as [|? ? Ha Hl]; subst. constructor.
  - intros Hin. apply in_map_iff in Hin. destruct Hin as (b & E & Hb).
    apply Hinj in E; auto. now subst.
  - apply IH; auto.
Qed.

Lemma mem_node_In (v : node) (l : list node) : mem_node v l = true <-> In v l.
Proof.
  unfold mem_node. rewrite existsb_exists. split.
  - intros (w & Hw & E). apply Z.eqb_eq in E. now subst.
  - intros H. exists v. split; [assumption | apply Z.eqb_refl].
Qed.

Lemma mem_node_false (v : node) (l : list node) :
  mem_node v l = false <-> ~ In v l.
Proof.
  rewrite <- mem_node_In. destruct (mem_node v l); split; congruence.
Qed.

Lemma edge_eqb_eq (e f : edge) : edge_eqb e f = true <-> e = f.
Proof.
  destruct e as [a b], f as [c d]. unfold edge_eqb. simpl.
  rewrite andb_true_iff, !Z.eqb_eq. split.
  - intros [-> ->]. reflexivity.
  - intros [= -> ->]. auto.
Qed.

Lemma mem_edge_In (e : edge) (l : list edge) : mem_edge e l = true <-> In e l.
Proof.
  unfold mem_edge. rewrite existsb_exists. split.
  - intros (f & Hf & E). apply edge_eqb_eq in E. now subst.
  - intros H. exists e. split; [assumption | now apply edge_eqb_eq].
Qed.

(** ** Adjacency after an update *)

Lemma adj_not_node (G : Graph) (v : node) : ~ In v (nodes G) -> adj G v = [].
Proof.
  induction G as [|[k l] G IH]; simpl; intros H; [reflexivity|].
  destruct (Z.eqb_spec k v) as [->|Hne]; [tauto|]. apply IH. tauto.
Qed.

Lemma adj_entry (G : Graph) (k : node) (l : list node) :
  NoDup (nodes G) -> In (k, l) G -> adj G k = l.
Proof.
  induction G as [|[k' l'] G IH]; simpl; intros Hnd Hin; [tauto|].
  inversion Hnd as [|? ? Hk' Hnd']; subst.
  destruct Hin as [[= -> ->]|Hin].
  - now rewrite Z.eqb_refl.
  - destruct (Z.eqb_spec k' k) as [->|Hne]; [|auto].
    exfalso. apply Hk'. apply (in_map fst) in Hin. exact Hin.
Qed.

Lemma adj_app (G H : Graph) (v : node) :
  adj (G ++ H) v = if mem_node v (nodes G) then adj G v else adj H v.
Proof.
  induction G as [|[k l] G IH]; simpl; [reflexivity|].
  rewrite (Z.eqb_sym v k).
  destruct (k =? v); simpl; [reflexivity | exact IH].
Qed.

Lemma nodes_add_node (G : Graph) (n : node) :
  nodes (add_node G n) = if mem_node n (nodes G) then nodes G else nodes G ++ [n].
Proof.
  unfold add_node. destruct (mem_node n (nodes G)); [reflexivity|].
  unfold nodes. now rewrite map_app.
Qed.

Lemma In_nodes_add_node (G : Graph) (n v : node) :
  In v (nodes (add_node G n)) <-> In v (nodes G) \/ v = n.
Proof.
  rewrite nodes_add_node. destruct (mem_node n (nodes G)) eqn:E.
  - apply mem_node_In in E. split; [tauto | intros [H| ->]; assumption].
  - rewrite in_app_iff. simpl. intuition congruence.
Qed.

Lemma adj_add_node (G : Graph) (n v : node) : adj (add_node G n) v = adj G v.
Proof.
  unfold add_node. destruct (mem_node n (nodes G)) eqn:E; [reflexivity|].
  rewrite adj_app. destruct (mem_node v (nodes G)) eqn:Ev; [reflexivity|].
  apply mem_node_false in Ev. rewrite (adj_not_node G v Ev). simpl.
  now destruct (n =? v).
Qed.

Lemma nodes_add_nbr (G : Graph) (u v : node) : nodes (add_nbr G u v) = nodes G.
Proof.
  unfold add_nbr, nodes. rewrite map_map. apply map_ext.
  intros [k l]. simpl. now destruct (k =? u).
Qed.

Lemma length_add_nbr (G : Graph) (u v : node) :
  length (add_nbr G u v) = length G.
Proof. unfold add_nbr. apply length_map. Qed.

Lemma In_with_key (v w : node) (l : list node) :
  In w (with_key v l) <-> In w l \/ w = v.
Proof.
  unfold with_key. destruct (mem_node v l) eqn:E.
  - apply mem_node_In in E. split; [tauto | intros [H| ->]; assumption].
  - rewrite in_app_iff. simpl. intuition congruence.
Qed.

Lemma adj_add_nbr (G : Graph) (u v a : node) :
  adj (add_nbr G u v) a =
  if (a =? u) && mem_node u (nodes G) then with_key v (adj G u) else adj G a.
Proof.
  induction G as [|[k l] G IH]; simpl.
  - now rewrite andb_false_r.
  - destruct (Z.eqb_spec k u) as [->|Hku]; simpl.
    + rewrite Z.eqb_refl, andb_true_r, (Z.eqb_sym a u).
      destruct (u =? a) eqn:E; [reflexivity|].
      rewrite IH, (Z.eqb_sym a u), E. reflexivity.
    + destruct (Z.eqb_spec k a) as [->|Hka].
      * destruct (Z.eqb_spec a u); [congruence | reflexivity].
      * rewrite IH. destruct (Z.eqb_spec u k); [congruence|]. reflexivity.
Qed.

Lemma In_adj_add_nbr (G : Graph) (u v a w : node) :
  In u (nodes G) ->
  In w (adj (add_nbr G u v) a) <-> In w (adj G a) \/ (a = u /\ w = v).
Proof.
  intros Hu. rewrite adj_add_nbr.
  apply mem_node_In in Hu. rewrite Hu, andb_true_r.
  destruct (Z.eqb_spec a u) as [->|Hne].
  - rewrite In_with_key. tauto.
  - tauto.
Qed.

Lemma nodes_add_edge (G : Graph) (u v : node) :
  In u (nodes G) -> In v (nodes G) -> nodes (add_edge G u v) = nodes G.
Proof.
  intros Hu Hv. unfold add_edge. rewrite !nodes_add_nbr, !nodes_add_node.
  apply mem_node_In in Hu. rewrite Hu.
  apply mem_node_In in Hv. now rewrite Hv.
Qed.

Lemma add_edge_present (G : Graph) (u v : node) :
  In u (nodes G) -> In v (nodes G) ->
  add_edge G u v = add_nbr (add_nbr G u v) v u.
Proof.
  intros Hu Hv. unfold add_edge, add_node.
  apply mem_node_In in Hu. rewrite Hu.
  apply mem_node_In in Hv. now rewrite Hv.
Qed.

Lemma In_adj_add_edge (G : Graph) (u v a w : node) :
  In u (nodes G) -> In v (nodes G) ->
  In w (adj (add_edge G u v) a) <->
  In w (adj G a) \/ (a = u /\ w = v) \/ (a = v /\ w = u).
Proof.
  intros Hu Hv. rewrite add_edge_present by assumption.
  rewrite In_adj_add_nbr by (rewrite nodes_add_nbr; assumption).
  rewrite In_adj_add_nbr by assumption. tauto.
Qed.

(** ** Well-formedness is kept by the updates *)

Lemma wf_empty : wf empty.
Proof.
  split; simpl; intros; try tauto; constructor.
Qed.

Lemma wf_add_node (G : Graph) (n : node) : wf G -> wf (add_node G n).
Proof.
  intros [Hn Hb Hc Hs]. split.
  - rewrite nodes_add_node. destruct (mem_node n (nodes G)) eqn:E; [assumption|].
    apply mem_node_false in E. now apply NoDup_snoc.
  - intros v. rewrite adj_add_node. apply Hb.
  - intros u v. rewrite adj_add_node, In_nodes_add_node. intros H. left. eauto.
  - intros u v. rewrite !adj_add_node. apply Hs.
Qed.

Lemma NoDup_with_key (v : node) (l : list node) : NoDup l -> NoDup (with_key v l).
Proof.
  intros H. unfold with_key. destruct (mem_node v l) eqn:E; [assumption|].
  apply mem_node_false in E. now apply NoDup_snoc.
Qed.

Lemma NoDup_adj_add_nbr (G : Graph) (u v : node) :
  (forall a, NoDup (adj G a)) -> forall a, NoDup (adj (add_nbr G u v) a).
Proof.
  intros H a. rewrite adj_add_nbr.
  destruct ((a =? u) && mem_node u (nodes G)); [apply NoDup_with_key|]; apply H.
Qed.

Lemma wf_add_edge_present (G : Graph) (u v : node) :
  wf G -> In u (nodes G) -> In v (nodes G) -> wf (add_edge G u v).
Proof.
  intros [Hn Hb Hc Hs] Hu Hv. split.
  - now rewrite nodes_add_edge.
  - rewrite add_edge_present by assumption.
    now do 2 apply NoDup_adj_add_nbr.
  - intros a w. rewrite In_adj_add_edge, nodes_add_edge by assumption.
    intros [H|[[-> ->]|[-> ->]]]; eauto.
  - intros a w. rewrite !In_adj_add_edge by assumption.
    intros [H|[[-> ->]|[-> ->]]]; auto.
Qed.

Lemma wf_add_edge (G : Graph) (u v : node) : wf G -> wf (add_edge G u v).
Proof.
  intros H.
  assert (Hu : In u (nodes (add_node (add_node G u) v)))
    by (rewrite !In_nodes_add_node; tauto).
  assert (Hv : In v (nodes (add_node (add_node G u) v)))
    by (rewrite !In_nodes_add_node; tauto).
  pose proof (wf_add_edge_present _ u v (wf_add_node _ v (wf_add_node _ u H)) Hu Hv)
    as W.
  rewrite add_edge_present in W by assumption. exact W.
Qed.

Lemma wf_add_nodes_from (ns : list node) (G : Graph) :
  wf G -> wf (add_nodes_from G ns).
Proof.
  revert G. induction ns as [|n ns IH]; simpl; intros G H; [assumption|].
  apply IH. now apply wf_add_node.
Qed.

Lemma wf_add_edges_from (es : list edge) (G : Graph) :
  wf G -> wf (add_edges_from G es).
Proof.
  revert G. induction es as [|e es IH]; simpl; intros G H; [assumption|].
  apply IH. now apply wf_add_edge.
Qed.

Lemma In_nodes_add_nodes_from (ns : list node) (G : Graph) (v : node) :
  In v (nodes (add_nodes_from G ns)) <-> In v (nodes G) \/ In v ns.
Proof.
  revert G. induction ns as [|n ns IH]; simpl; intros G; [tauto|].
  rewrite IH, In_nodes_add_node. intuition congruence.
Qed.

Lemma adj_add_nodes_from (ns : list node) (G : Graph) (v : node) :
  adj (add_nodes_from G ns) v = adj G v.
Proof.
  revert G. induction ns as [|n ns IH]; simpl; intros G; [reflexivity|].
  now rewrite IH, adj_add_node.
Qed.

(** Adding the nodes of a graph to the empty graph gives its node list
    back. *)
Lemma nodes_add_nodes_from_app (ns : list node) (G : Graph) :
  NoDup (nodes G ++ ns) -> nodes (add_nodes_from G ns) = nodes G ++ ns.
Proof.
  revert G. induction ns as [|n ns IH]; simpl; intros G H.
  - now rewrite app_nil_r.
  - assert (Hn : ~ In n (nodes G)).
    { intros Hin. apply NoDup_remove_2 in H. apply H.
      apply in_or_app. now left. }
    assert (E : nodes (add_node G n) = nodes G ++ [n]).
    { rewrite nodes_add_node. apply mem_node_false in Hn. now rewrite Hn. }
    rewrite IH; rewrite E, <- app_assoc; [reflexivity | exact H].
Qed.

Lemma nodes_add_nodes_from_empty (ns : list node) :
  NoDup ns -> nodes (add_nodes_from empty ns) = ns.
Proof. intros H. now rewrite nodes_add_nodes_from_app. Qed.

(** ** Counting edges through degrees *)

Lemma total_degree_entries (G : Graph) :
  NoDup (nodes G) -> total_degree G = sum_Z (map degree_entry G).
Proof.
  intros H. unfold total_degree, nodes. rewrite map_map. f_equal.
  apply map_ext_in. intros [k l] Hin. unfold degree, degree_entry. simpl.
  now rewrite (adj_entry G k l H Hin).
Qed.

Lemma add_nbr_absent (G : Graph) (u v : node) :
  ~ In u (nodes G) -> add_nbr G u v = G.
Proof.
  induction G as [|[k l] G IH]; simpl; intros H; [reflexivity|].
  destruct (Z.eqb_spec k u) as [->|Hne]; [tauto|].
  f_equal. apply IH. tauto.
Qed.

Lemma sum_entries_add_nbr (G : Graph) (u v : node) :
  NoDup (nodes G) -> In u (nodes G) -> ~ In v (adj G u) ->
  sum_Z (map degree_entry (add_nbr G u v)) =
  sum_Z (map degree_entry G) + 1 + (if u =? v then 1 else 0).
Proof.
  induction G as [|[k l] G IH]; simpl; intros Hnd Hu Hv; [tauto|].
  inversion Hnd as [|? ? Hk Hnd']; subst.
  destruct (Z.eqb_spec k u) as [->|Hne].
  - rewrite (add_nbr_absent G u v Hk).
    unfold degree_entry at 1 3. simpl.
    unfold with_key. apply mem_node_false in Hv. rewrite Hv.
    assert (E : mem_node u (l ++ [v]) = mem_node u l || (u =? v)).
    { unfold mem_node. rewrite existsb_app. simpl. now rewrite orb_false_r. }
    rewrite E, length_app, Nat2Z.inj_add. simpl length.
    destruct (Z.eqb_spec u v) as [->|Huv].
    + rewrite Hv. simpl. lia.
    + rewrite orb_false_r. lia.
  - destruct Hu as [Hu|Hu]; [congruence|].
    rewrite IH by assumption. lia.
Qed.

Lemma total_degree_add_edge (G : Graph) (u v : node) :
  wf G -> In u (nodes G) -> In v (nodes G) -> ~ In v (adj G u) ->
  total_degree (add_edge G u v) = total_degree G + 2.
Proof.
  intros W Hu Hv Habs.
  pose proof (wf_add_edge_present G u v W Hu Hv) as W'.
  rewrite (total_degree_entries _ (wf_nodes _ W')).
  rewrite (total_degree_entries _ (wf_nodes _ W)).
  rewrite add_edge_present by assumption.
  assert (Hnd1 : NoDup (nodes (add_nbr G u v)))
    by (rewrite nodes_add_nbr; apply (wf_nodes _ W)).
  destruct (Z.eqb_spec u v) as [->|Huv].
  - assert (E : add_nbr (add_nbr G v v) v v = add_nbr G v v).
    { unfold add_nbr at 1. rewrite <- (map_id (add_nbr G v v)) at 2.
      apply map_ext_in. intros [k l] Hin. simpl.
      destruct (Z.eqb_spec k v) as [->|Hne]; [|reflexivity].
      f_equal. rewrite <- (adj_entry _ v l Hnd1 Hin).
      unfold with_key.
      replace (mem_node v (adj (add_nbr G v v) v)) with true; [reflexivity|].
      symmetry. apply mem_node_In. apply In_adj_add_nbr; auto. }
    rewrite E, sum_entries_add_nbr by (auto using wf_nodes).
    rewrite Z.eqb_refl. lia.
  - rewrite sum_entries_add_nbr; [| assumption | now rewrite nodes_add_nbr |].
    + rewrite sum_entries_add_nbr by (auto using wf_nodes).
      destruct (Z.eqb_spec u v); [congruence|].
      destruct (Z.eqb_spec v u); [congruence|]. lia.
    + rewrite In_adj_add_nbr by assumption.
      intros [H|[H _]]; [|congruence].
      apply Habs. now apply (wf_sym _ W).
Qed.

(** ** Paths *)

Lemma path_trans (G : Graph) (u v w : node) :
  path G u v -> path G v w -> path G u w.
Proof.
  intros Huv Hvw. induction Hvw as [|a b Hva IH Hab]; [assumption|].
  eapply path_step; eauto.
Qed.

Lemma path_sym (G : Graph) (u v : node) : wf G -> path G u v -> path G v u.
Proof.
  intros W H. induction H as [|a b Hua IH Hab]; [constructor|].
  apply path_trans with a; [|assumption].
  apply path_step with b; [constructor|]. now apply (wf_sym _ W).
Qed.

Lemma path_in_nodes (G : Graph) (u v : node) :
  wf G -> In u (nodes G) -> path G u v -> In v (nodes G).
Proof.
  intros W Hu H. induction H as [|a b Hua IH Hab]; [assumption|].
  eapply (wf_closed _ W); eauto.
Qed.

(** ** The search only finds nodes reachable from the source, once each *)

Section Bfs.

Variable G : Graph.
Variable source : node.

Lemma visit_incl (acc : list node * list node) (w : node) :
  incl (fst acc) (fst (visit acc w)).
Proof.
  unfold visit. destruct (mem_node w (fst acc)); simpl.
  - apply incl_refl.
  - apply incl_appl, incl_refl.
Qed.

Lemma visit_next_seen (acc : list node * list node) (w : node) :
  incl (snd acc) (fst acc) -> incl (snd (visit acc w)) (fst (visit acc w)).
Proof.
  intros H. unfold visit. destruct (mem_node w (fst acc)); simpl; [assumption|].
  apply incl_app; [apply incl_appl, H | apply incl_appr, incl_refl].
Qed.

Lemma visit_inv (acc : list node * list node) (v w : node) :
  bfs_inv G source (fst acc) -> In v (fst acc) -> In w (adj G v) ->
  bfs_inv G source (fst (visit acc w)).
Proof.
  intros [Hnd Hp] Hv Hw. unfold visit.
  destruct (mem_node w (fst acc)) eqn:E; simpl; [now split|].
  apply mem_node_false in E. split.
  - now apply NoDup_snoc.
  - intros a Ha. apply in_app_or in Ha. destruct Ha as [Ha|[<-|[]]]; [auto|].
    apply path_step with v; auto.
Qed.

Lemma visit_all_inv (ws : list node) (acc : list node * list node) (v : node) :
  bfs_inv G source (fst acc) -> In v (fst acc) -> incl ws (adj G v) ->
  incl (snd acc) (fst acc) ->
  let acc' := fold_left visit ws acc in
  bfs_inv G source (fst acc') /\ incl (fst acc) (fst acc') /\
  incl (snd acc') (fst acc').
Proof.
  revert acc. induction ws as [|w ws IH]; simpl; intros acc Hi Hv Hws Hn.
  - repeat split; try apply Hi; auto using incl_refl.
  - assert (Hw : In w (adj G v)) by (apply Hws; now left).
    assert (Hws' : incl ws (adj G v)) by (intros a Ha; apply Hws; now right).
    pose proof (visit_incl acc w) as Hm.
    destruct (IH (visit acc w)) as (I1 & I2 & I3);
      eauto using visit_inv, visit_next_seen.
    repeat split; try apply I1; auto. eapply incl_tran; eauto.
Qed.

Lemma scan_inv (level : list node) (acc : list node * list node) :
  bfs_inv G source (fst acc) -> incl level (fst acc) ->
  incl (snd acc) (fst acc) ->
  let acc' := fold_left (fun acc v => fold_left visit (adj G v) acc) level acc in
  bfs_inv G source (fst acc') /\ incl (fst acc) (fst acc') /\
  incl (snd acc') (fst acc').
Proof.
  revert acc. induction level as [|v level IH]; simpl; intros acc Hi Hl Hn.
  - repeat split; try apply Hi; auto using incl_refl.
  - destruct (visit_all_inv (adj G v) acc v) as (I1 & I2 & I3);
      auto using incl_refl.
    { apply Hl. now left. }
    destruct (IH (fold_left visit (adj G v) acc)) as (J1 & J2 & J3); auto.
    { intros a Ha. apply I2, Hl. now right. }
    repeat split; try apply J1; auto. eapply incl_tran; eauto.
Qed.

Lemma plain_bfs_loop_inv (fuel : nat) (seen next : list node) :
  bfs_inv G source seen -> incl next seen ->
  bfs_inv G source (plain_bfs_loop fuel G seen next) /\
  incl seen (plain_bfs_loop fuel G seen next).
Proof.
  revert seen next. induction fuel as [|fuel IH]; simpl; intros seen next Hi Hn;
    [split; [assumption | apply incl_refl]|].
  destruct next as [|v next]; [split; [assumption | apply incl_refl]|].
  destruct (scan_inv (v :: next) (seen, [])) as (I1 & I2 & I3);
    [exact Hi | exact Hn | intros a [] |].
  destruct (IH _ _ I1 I3) as [J1 J2]. split; [assumption|].
  eapply incl_tran; eauto.
Qed.

Lemma bfs_inv_source : bfs_inv G source [source].
Proof.
  split.
  - constructor; [intros [] | constructor].
  - intros w [<-|[]]. constructor.
Qed.

Lemma plain_bfs_inv : bfs_inv G source (plain_bfs G source).
Proof. apply plain_bfs_loop_inv; [apply bfs_inv_source | apply incl_refl]. Qed.

Lemma plain_bfs_source : In source (plain_bfs G source).
Proof.
  apply (proj2 (plain_bfs_loop_inv (length G) [source] [source]
                  bfs_inv_source (incl_refl _))).
  now left.
Qed.

End Bfs.

(** [nx.is_connected] answers [True] only on a connected graph. *)
Lemma is_connected_sound (G : Graph) :
  wf G -> is_connected G = Ok true -> connected G.
Proof.
  intros W H. unfold is_connected in H.
  destruct (nodes G) as [|v0 ns] eqn:En; [discriminate|].
  injection H as H. apply Nat.eqb_eq in H.
  destruct (plain_bfs_inv G v0) as [Hnd Hp].
  assert (Hv0 : In v0 (nodes G)) by (rewrite En; now left).
  assert (Hall : incl (nodes G) (plain_bfs G v0)).
  { apply NoDup_length_incl.
    - assumption.
    - unfold nodes. rewrite length_map. lia.
    - intros w Hw. eapply path_in_nodes; eauto. }
  intros u v Hu Hv. apply path_trans with v0.
  - apply path_sym; auto.
  - auto.
Qed.

(** Every node is in one of the components. *)
Lemma components_cover (G : Graph) (vs seen : list node) (v : node) :
  In v vs ->
  In v seen \/ exists c, In c (components_loop G vs seen) /\ In v c.
Proof.
  revert seen. induction vs as [|a vs IH]; simpl; intros seen Hv; [tauto|].
  destruct (mem_node a seen) eqn:E.
  - destruct Hv as [<-|Hv]; [left; now apply mem_node_In | auto].
  - destruct Hv as [<-|Hv].
    + right. exists (plain_bfs G a). split; [now left | apply plain_bfs_source].
    + destruct (IH (seen ++ plain_bfs G a) Hv) as [H|(c & Hc & Hvc)].
      * apply in_app_or in H. destruct H as [H|H]; [now left|].
        right. exists (plain_bfs G a). split; [now left | assumption].
      * right. exists c. split; [now right | assumption].
Qed.

Lemma connected_components_cover (G : Graph) (v : node) :
  In v (nodes G) -> exists c, In c (connected_components G) /\ In v c.
Proof.
  intros Hv. destruct (components_cover G (nodes G) [] v Hv) as [[]|H]. exact H.
Qed.

End NxFacts.

(** ** The search finds every node reachable from the source *)

Module BfsComplete.

Import Nx NxFacts.

Lemma extends_refl (acc : list node * list node) : extends acc acc.
Proof.
  unfold extends. repeat split; auto using incl_refl.
Qed.

Lemma extends_trans (a b c : list node * list node) :
  extends a b -> extends b c -> extends a c.
Proof.
  intros (A1 & A2 & A3 & A4) (B1 & B2 & B3 & B4). unfold extends.
  split; [eapply incl_tran; eauto|]. split; [eapply incl_tran; eauto|].
  split; [|lia].
  intros w Hw. destruct (B3 w Hw) as [H|H]; [|now right].
  destruct (A3 w H) as [H'|H']; [now left | right; now apply B2].
Qed.

Lemma visit_extends (acc : list node * list node) (w : node) :
  extends acc (visit acc w) /\ In w (fst (visit acc w)).
Proof.
  unfold visit. destruct (mem_node w (fst acc)) eqn:E.
  - split; [apply extends_refl | now apply mem_node_In].
  - split; [|simpl; apply in_or_app; right; now left].
    unfold extends. simpl. rewrite !length_app. simpl.
    split; [apply incl_appl, incl_refl|].
    split; [apply incl_appl, incl_refl|]. split; [|lia].
    intros a Ha. apply in_app_or in Ha.
    destruct Ha as [Ha|Ha]; [now left | right; apply in_or_app; now right].
Qed.

Lemma visit_all_extends (ws : list node) (acc : list node * list node) :
  extends acc (fold_left visit ws acc) /\
  forall w, In w ws -> In w (fst (fold_left visit ws acc)).
Proof.
  revert acc. induction ws as [|a ws IH]; simpl; intros acc.
  - split; [apply extends_refl | tauto].
  - destruct (visit_extends acc a) as [E1 Ha].
    destruct (IH (visit acc a)) as [E2 Hws].
    split; [eapply extends_trans; eauto|].
    intros w [<-|Hw]; [|auto]. destruct E2 as (I & _). now apply I.
Qed.

Lemma scan_extends (G : Graph) (level : list node)
    (acc : list node * list node) :
  let acc' :=
    fold_left (fun acc v => fold_left visit (adj G v) acc) level acc in
  extends acc acc' /\
  forall v, In v level -> forall w, In w (adj G v) -> In w (fst acc').
Proof.
  revert acc. induction level as [|a level IH]; simpl; intros acc.
  - split; [apply extends_refl | tauto].
  - destruct (visit_all_extends (adj G a) acc) as [E1 Ha].
    destruct (IH (fold_left visit (adj G a) acc)) as [E2 Hl].
    split; [eapply extends_trans; eauto|].
    intros v [<-|Hv] w Hw; [|eauto]. destruct E2 as (I & _). apply I. auto.
Qed.

Section Complete.

Variable G : Graph.
Variable source : node.
Hypothesis W : wf G.
Hypothesis Hsource : In source (nodes G).

Lemma seen_bounded (seen : list node) :
  bfs_inv G source seen -> (length seen <= length G)%nat.
Proof.
  intros [Hnd Hp]. rewrite <- (length_map fst G). fold (nodes G).
  apply NoDup_incl_length; [assumption|].
  intros w Hw. eapply path_in_nodes; eauto.
Qed.

Lemma plain_bfs_loop_closed (fuel : nat) (seen next : list node) :
  bfs_inv G source seen -> incl next seen -> closed_but G seen next ->
  (length G + (match next with [] => 0 | _ => 1 end) <= length seen + fuel)%nat ->
  closed_but G (plain_bfs_loop fuel G seen next) [].
Proof.
  revert seen next.
  induction fuel as [|fuel IH]; intros seen next Hi Hn Hc Hf.
  - pose proof (seen_bounded seen Hi) as Hb. cbn [plain_bfs_loop].
    destruct next as [|a next]; [|lia].
    intros v Hv _. apply Hc; auto.
  - cbn [plain_bfs_loop]. destruct next as [|a next].
    + intros v Hv _. apply Hc; auto.
    + set (level := a :: next) in *.
      destruct (scan_inv G source level (seen, [])) as (I1 & I2 & I3);
        [exact Hi | exact Hn | intros x [] |].
      destruct (scan_extends G level (seen, [])) as [(E1 & E2 & E3 & E4) Hl].
      fold (scan_level G seen level) in *. simpl in E1, E3, E4.
      apply IH; auto.
      * intros v Hv Hnv w Hw.
        destruct (E3 v Hv) as [Hs|Hs]; [|contradiction].
        destruct (in_dec Z.eq_dec v level) as [Hlv|Hlv]; [eauto|].
        apply E1. eapply Hc; eauto.
      * destruct (snd (scan_level G seen level)); simpl in *; lia.
Qed.

(** Every node joined to the source is found. *)
Lemma plain_bfs_complete (w : node) :
  path G source w -> In w (plain_bfs G source).
Proof.
  assert (Hc : closed_but G (plain_bfs G source) []).
  { apply plain_bfs_loop_closed.
    - apply bfs_inv_source.
    - apply incl_refl.
    - intros v [<-|[]] Hv. exfalso. apply Hv. now left.
    - simpl. lia. }
  intros H. induction H as [|v w Hv IH Hw].
  - apply plain_bfs_source.
  - eapply Hc; eauto.
Qed.

Lemma plain_bfs_iff (w : node) :
  In w (plain_bfs G source) <-> path G source w.
Proof.
  split; [apply (proj2 (plain_bfs_inv G source)) | apply plain_bfs_complete].
Qed.

End Complete.

(** [nx.is_connected] answers [True] on every connected graph that has a
    node. *)
Lemma is_connected_complete (G : Graph) :
  wf G -> nodes G <> [] -> connected G -> is_connected G = Ok true.
Proof.
  intros W Hne Hc. unfold is_connected.
  destruct (nodes G) as [|v0 ns] eqn:En; [congruence|]. f_equal.
  assert (Hv0 : In v0 (nodes G)) by (rewrite En; now left).
  apply Nat.eqb_eq. apply Nat.le_antisymm.
  - apply seen_bounded with v0; auto. apply plain_bfs_inv.
  - rewrite <- (length_map fst G). fold (nodes G).
    apply NoDup_incl_length; [apply (wf_nodes _ W)|].
    intros w Hw. apply plain_bfs_complete; auto.
Qed.

(** Each component is the set of nodes joined to one of the nodes. *)
Lemma components_loop_bfs (G : Graph) (vs seen c : list node) :
  In c (components_loop G vs seen) -> exists a, In a vs /\ c = plain_bfs G a.
Proof.
  revert seen. induction vs as [|a vs IH]; simpl; intros seen H; [tauto|].
  destruct (mem_node a seen).
  - destruct (IH _ H) as (b & ? & ?). eauto.
  - destruct H as [<-|H]; [eauto|]. destruct (IH _ H) as (b & ? & ?). eauto.
Qed.

Lemma component_joined (G : Graph) (c : list node) (u v : node) :
  wf G -> In c (connected_components G) -> In u c ->
  (In v c <-> path G u v).
Proof.
  intros W Hc Hu. apply components_loop_bfs in Hc. destruct Hc as (a & Ha & ->).
  rewrite plain_bfs_iff in Hu by assumption.
  rewrite plain_bfs_iff by assumption. split; intros H.
  - apply path_trans with a; [now apply path_sym | assumption].
  - eapply path_trans; eauto.
Qed.

End BfsComplete.

Import NxFacts.

(* ===================================================================== *)
(** * Edge enumeration and the tree of a solution *)
(* ===================================================================== *)

Lemma sorted_pair_le (e : edge) : fst (sorted_pair e) <= snd (sorted_pair e).
Proof. unfold sorted_pair. simpl. lia. Qed.

Lemma sorted_pair_cases (e : edge) :
  sorted_pair e = e \/ sorted_pair e = (snd e, fst e).
Proof.
  destruct e as [a b]. unfold sorted_pair. simpl.
  destruct (Z.le_ge_cases a b).
  - left. f_equal; lia.
  - right. f_equal; lia.
Qed.

Lemma sorted_pair_same (a b c d : node) :
  sorted_pair (a, b) = sorted_pair (c, d) ->
  (a = c /\ b = d) \/ (a = d /\ b = c).
Proof. unfold sorted_pair. simpl. intros [= H1 H2]. lia. Qed.

Lemma In_edges_from (seen : list node) (G : Graph) (a b : node) :
  In (a, b) (edges_from seen G) ->
  exists l, In (a, l) G /\ In b l /\ ~ In b seen.
Proof.
  revert seen. induction G as [|[n nbrs] G IH]; simpl; intros seen H; [tauto|].
  apply in_app_or in H. destruct H as [H|H].
  - apply in_map_iff in H. destruct H as (w & [= -> ->] & Hw).
    apply filter_In in Hw. destruct Hw as [Hw Hs].
    apply negb_true_iff, mem_node_false in Hs. eauto.
  - destruct (IH _ H) as (l & Hl & Hb & Hs).
    exists l. repeat split; auto. intros Hin. apply Hs. now right.
Qed.

Lemma In_edges (G : Graph) (a b : node) :
  wf G -> In (a, b) (edges G) -> In a (nodes G) /\ In b (adj G a).
Proof.
  intros W H. destruct (In_edges_from _ _ _ _ H) as (l & Hl & Hb & _).
  split.
  - apply (in_map fst) in Hl. exact Hl.
  - now rewrite (adj_entry G a l (wf_nodes _ W) Hl).
Qed.

Lemma NoDup_edges_from (seen : list node) (G : Graph) :
  NoDup (nodes G) -> (forall k l, In (k, l) G -> NoDup l) ->
  NoDup (map sorted_pair (edges_from seen G)).
Proof.
  revert seen. induction G as [|[n nbrs] G IH]; simpl; intros seen Hn Hl;
    [constructor|].
  inversion Hn as [|? ? Hk Hn']; subst.
  rewrite map_app. apply NoDup_app.
  - rewrite map_map. apply NoDup_map_inj.
    + intros v w _ _ E. apply sorted_pair_same in E. lia.
    + apply NoDup_filter. eapply Hl. now left.
  - apply IH; [assumption|]. intros k l Hin. eapply Hl. right. exact Hin.
  - intros e H1 H2.
    apply in_map_iff in H1. destruct H1 as ([a b] & E1 & H1).
    apply in_map_iff in H1. destruct H1 as (w & [= <- <-] & _).
    apply in_map_iff in H2. destruct H2 as ([c d] & E2 & H2).
    destruct (In_edges_from _ _ _ _ H2) as (l & Hcl & _ & Hd).
    rewrite <- E2 in E1. apply sorted_pair_same in E1.
    destruct E1 as [[-> _]|[-> _]].
    + apply Hk. apply (in_map fst) in Hcl. exact Hcl.
    + apply Hd. now left.
Qed.

Lemma NoDup_all_edges (G : Graph) : wf G -> NoDup (all_edges G).
Proof.
  intros W. apply NoDup_edges_from; [apply (wf_nodes _ W)|].
  intros k l H. rewrite <- (adj_entry G k l (wf_nodes _ W) H).
  apply (wf_nbrs _ W).
Qed.

Lemma In_all_edges (G : Graph) (e : edge) :
  wf G -> In e (all_edges G) ->
  In (fst e) (nodes G) /\ In (snd e) (nodes G) /\
  In (snd e) (adj G (fst e)) /\ fst e <= snd e.
Proof.
  intros W H. apply in_map_iff in H. destruct H as ([a b] & <- & H).
  destruct (In_edges G a b W H) as [Ha Hb].
  assert (Hb' : In b (nodes G)) by (eapply (wf_closed _ W); eauto).
  assert (Hs : In a (adj G b)) by (now apply (wf_sym _ W)).
  split; [|split; [|split; [|apply sorted_pair_le]]];
    destruct (sorted_pair_cases (a, b)) as [-> | ->]; simpl; auto.
Qed.

(** The tree of a solution: adding edges that are new, between nodes that
    are there. *)
Lemma add_edges_from_fresh (es : list edge) (T : Graph) :
  wf T -> NoDup es ->
  (forall e, In e es ->
     In (fst e) (nodes T) /\ In (snd e) (nodes T) /\ fst e <= snd e /\
     ~ In (snd e) (adj T (fst e))) ->
  wf (add_edges_from T es) /\ nodes (add_edges_from T es) = nodes T /\
  total_degree (add_edges_from T es) =
    total_degree T + 2 * Z.of_nat (length es) /\
  (forall a b, In b (adj (add_edges_from T es) a) <->
               In b (adj T a) \/ In (a, b) es \/ In (b, a) es).
Proof.
  revert T. induction es as [|[u v] es IH]; intros T W Hnd He.
  - simpl. split; [assumption|]. split; [reflexivity|]. split; [lia|].
    intros a b. tauto.
  - inversion Hnd as [|? ? Hfresh Hnd']; subst.
    destruct (He (u, v)) as (Hu & Hv & Huv & Habs); [now left|].
    simpl fst in *; simpl snd in *.
    change (add_edges_from T ((u, v) :: es))
      with (add_edges_from (add_edge T u v) es).
    pose proof (wf_add_edge_present T u v W Hu Hv) as W1.
    pose proof (nodes_add_edge T u v Hu Hv) as N1.
    destruct (IH (add_edge T u v) W1 Hnd') as (W' & N' & D' & A').
    { intros [a b] Hin.
      destruct (He (a, b)) as (Ha & Hb & Hab & Hn); [now right|].
      simpl fst in *; simpl snd in *. rewrite N1.
      split; [assumption|]. split; [assumption|]. split; [assumption|].
      rewrite In_adj_add_edge by assumption.
      intros [H|[[-> ->]|[-> ->]]]; [tauto | tauto |].
      assert (u = v) by lia. subst. tauto. }
    split; [exact W'|]. split; [congruence|]. split.
    + rewrite D', total_degree_add_edge by assumption.
      change (length ((u, v) :: es)) with (S (length es)). lia.
    + intros a b. rewrite A', In_adj_add_edge by assumption. simpl. split.
      * intros [[H|[[-> ->]|[-> ->]]]|[H|H]]; auto.
      * intros [H|[[[= -> ->]|H]|[[= -> ->]|H]]]; auto 6.
Qed.

(* ===================================================================== *)
(** * Facts about the model *)
(* ===================================================================== *)

Lemma bind_Ok {A B} (r : result A) (k : A -> result B) (b : B) :
  bind r k = Ok b -> exists a, r = Ok a /\ k a = Ok b.
Proof. destruct r as [a|e]; simpl; [eauto | discriminate]. Qed.

Lemma mapM_Ok {A B} (f : A -> result B) (l : list A) (bs : list B) :
  mapM f l = Ok bs ->
  forall a, In a l -> exists b, f a = Ok b /\ In b bs.
Proof.
  revert bs. induction l as [|a l IH]; simpl; intros bs H c Hc; [tauto|].
  apply bind_Ok in H. destruct H as (b & Hb & H).
  apply bind_Ok in H. destruct H as (bs' & Hbs & [= <-]).
  destruct Hc as [<-|Hc].
  - exists b. split; [assumption | now left].
  - destruct (IH bs' Hbs c Hc) as (b' & ? & ?). exists b'. split; [|right]; auto.
Qed.

Lemma mapM_x (G : Graph) (l : list edge) (xs : list var) :
  mapM (x G) l = Ok xs -> xs = map X l /\ incl l (all_edges G).
Proof.
  revert xs. induction l as [|e l IH]; simpl; intros xs H.
  - injection H as <-. split; [reflexivity | intros a []].
  - apply bind_Ok in H. destruct H as (v & Hv & H).
    apply bind_Ok in H. destruct H as (vs & Hvs & [= <-]).
    destruct (IH vs Hvs) as [-> Hl]. unfold x in Hv.
    destruct (mem_edge e (all_edges G)) eqn:E; [|discriminate].
    injection Hv as <-. apply mem_edge_In in E. split; [reflexivity|].
    intros a [<-|Ha]; auto.
Qed.

Lemma value_lpSum (a : var -> Z) (vs : list var) :
  value a (lpSum vs) = sum_Z (map a vs).
Proof.
  unfold value, lpSum. simpl. rewrite Z.add_0_r, map_map. f_equal.
  apply map_ext. intros v. simpl. destruct (a v); reflexivity.
Qed.

Lemma value_const (a : var -> Z) (c : Z) : value a (const c) = c.
Proof. reflexivity. Qed.

Lemma value_single (a : var -> Z) (v : var) : value a (single v) = a v.
Proof. unfold value, single. simpl. destruct (a v); reflexivity. Qed.

Lemma feasibleb_sound (a : var -> Z) (P : LpProblem) :
  feasibleb a P = true -> feasible a P.
Proof.
  unfold feasibleb, feasible. rewrite andb_true_iff, !forallb_forall.
  intros [Hb Hc]. split; [|assumption].
  intros v Hv. specialize (Hb v Hv). lia.
Qed.

Lemma solveur_propose_fiable (valeur : nat -> var -> Z) :
  solveur_fiable (solveur_propose valeur).
Proof.
  intros k P. unfold solveur_propose.
  destruct (feasibleb (valeur k) P) eqn:E; simpl; [|discriminate].
  intros _. now apply feasibleb_sound.
Qed.

(** The sum of 0/1 values counts the ones. *)
Lemma sum_binaires (a : edge -> Z) (l : list edge) :
  (forall e, In e l -> a e = 0 \/ a e = 1) ->
  sum_Z (map a l) = Z.of_nat (length (filter (fun e => a e =? 1) l)).
Proof.
  induction l as [|e l IH]; simpl; intros H; [reflexivity|].
  rewrite IH by auto.
  destruct (H e (or_introl Logic.eq_refl)) as [E|E]; rewrite E.
  - change (0 =? 1) with false. cbv iota. lia.
  - change (1 =? 1) with true. cbv iota. cbn [length]. lia.
Qed.

(** The partition computed by [analyser_structure]. *)
Lemma partitions_filter (nx_bridges : Graph -> list edge) (G : Graph) :
  let p := snd (analyser_structure nx_bridges G) in
  V01 p = filter (fun v => degree G v <=? 2) (nodes G) /\
  V2 p = filter (fun v => 2 <? degree G v) (nodes G) /\
  V3 p = [].
Proof.
  unfold analyser_structure. simpl.
  set (f := fun (p : Partitions) (v : node) =>
         if degree G v <=? 2
         then {| V01 := V01 p ++ [v]; V2 := V2 p; V3 := V3 p |}
         else {| V01 := V01 p; V2 := V2 p ++ [v]; V3 := V3 p |}).
  assert (H : forall l p,
    V01 (fold_left f l p) = V01 p ++ filter (fun v => degree G v <=? 2) l /\
    V2 (fold_left f l p) = V2 p ++ filter (fun v => 2 <? degree G v) l /\
    V3 (fold_left f l p) = V3 p).
  { induction l as [|v l IH]; intros p; simpl.
    - now rewrite !app_nil_r.
    - destruct (IH (f p v)) as (-> & -> & ->). unfold f.
      destruct (Z.leb_spec (degree G v) 2); destruct (Z.ltb_spec 2 (degree G v));
        try lia; simpl; rewrite <- ?app_assoc; auto. }
  apply (H (nodes G) {| V01 := []; V2 := []; V3 := [] |}).
Qed.

Section Modele.

Variable solver : nat -> LpProblem -> Z * (var -> Z).
Variable nx_cycle_basis : Graph -> list (list node).

(** What [modele] returns when no key is missing. *)
Lemma modele_Ok (G : Graph) (partitions : Partitions)
    (ponts edges_forcees : list edge) (P : LpProblem) :
  modele nx_cycle_basis G partitions ponts edges_forcees = Ok P ->
  exists c4,
    mapM (contrainte_cycle G) (nx_cycle_basis G) = Ok c4 /\
    P = {| direction_of := LpMinimize;
           binaries := map X (all_edges G) ++ map Y (V2 partitions);
           objective := lpSum (map Y (V2 partitions));
           constraints :=
             eq (lpSum (map X (all_edges G))) (const (number_of_nodes G - 1))
             :: c4
             ++ map (fun e => eq (single (X (sorted_pair e))) (const 1))
                  (filter (fun e => mem_edge (sorted_pair e) (all_edges G))
                     (nodup edge_eq_dec (ponts ++ edges_forcees)))
             ++ map (contrainte_degre G partitions) (nodes G) |}.
Proof.
  unfold modele. intros H. apply bind_Ok in H. destruct H as (c4 & H4 & [= <-]).
  exists c4. split; [assumption | reflexivity].
Qed.

(** What [resoudre_ilp_iteration] returns is read off the answer of the
    solver. *)
Lemma resoudre_ilp_iteration_Some (k : nat) (G : Graph)
    (partitions : Partitions) (ponts edges_forcees sol : list edge) :
  resoudre_ilp_iteration solver nx_cycle_basis k G partitions ponts
    edges_forcees = Ok (Some sol) ->
  exists P,
    modele nx_cycle_basis G partitions ponts edges_forcees = Ok P /\
    fst (solver k P) = 1 /\
    sol = filter (fun e => snd (solver k P) (X e) =? 1) (all_edges G).
Proof.
  unfold resoudre_ilp_iteration. intros H.
  apply bind_Ok in H. destruct H as (P & HP & H).
  exists P. destruct (Z.eqb_spec (fst (solver k P)) 1) as [E|E];
    [|discriminate].
  injection H as <-. auto.
Qed.

Section Solution.

Hypothesis fiable : solveur_fiable solver.

Variable k : nat.
Variable G : Graph.
Variable partitions : Partitions.
Variables ponts edges_forcees sol : list edge.

Hypothesis Hsol :
  resoudre_ilp_iteration solver nx_cycle_basis k G partitions ponts
    edges_forcees = Ok (Some sol).

Lemma sol_incl : incl sol (all_edges G).
Proof.
  destruct (resoudre_ilp_iteration_Some _ _ _ _ _ _ Hsol) as (P & _ & _ & ->).
  intros e He. apply filter_In in He. tauto.
Qed.

(** Cardinality constraint: as many edges as nodes, less one. *)
Lemma sol_length : Z.of_nat (length sol) = number_of_nodes G - 1.
Proof.
  destruct (resoudre_ilp_iteration_Some _ _ _ _ _ _ Hsol) as (P & HP & Hst & ->).
  destruct (fiable k P Hst) as [Hbin Hc].
  destruct (modele_Ok _ _ _ _ _ HP) as (c4 & _ & EP).
  set (val := snd (solver k P)) in *.
  assert (H1 : satisfies val
            (eq (lpSum (map X (all_edges G))) (const (number_of_nodes G - 1)))
          = true).
  { apply Hc. rewrite EP. simpl. now left. }
  unfold satisfies in H1. simpl in H1. apply Z.eqb_eq in H1.
  rewrite value_lpSum, value_const, map_map in H1.
  rewrite <- H1. symmetry.
  apply (sum_binaires (fun e => val (X e))).
  intros e He. apply Hbin. rewrite EP. simpl.
  apply in_or_app. left. now apply in_map.
Qed.

(** Cycle constraint: one edge at least of each cycle of the basis is
    left out. *)
Lemma sol_cycle (cycle : list node) :
  In cycle (nx_cycle_basis G) ->
  nb_aretes_dans sol (aretes_du_cycle cycle)
  <= Z.of_nat (length (aretes_du_cycle cycle)) - 1.
Proof.
  intros Hcy.
  destruct (resoudre_ilp_iteration_Some _ _ _ _ _ _ Hsol) as (P & HP & Hst & Es).
  destruct (fiable k P Hst) as [Hbin Hc].
  destruct (modele_Ok _ _ _ _ _ HP) as (c4 & H4 & EP).
  set (val := snd (solver k P)) in *.
  destruct (mapM_Ok _ _ _ H4 cycle Hcy) as (c & Ec & Hin).
  unfold contrainte_cycle in Ec. apply bind_Ok in Ec.
  destruct Ec as (xs & Hxs & [= <-]).
  apply mapM_x in Hxs. destruct Hxs as [-> Hincl].
  assert (H1 : satisfies val
            (le (lpSum (map X (aretes_du_cycle cycle)))
                (const (Z.of_nat (length (aretes_du_cycle cycle)) - 1)))
          = true).
  { apply Hc. rewrite EP. simpl. right. apply in_or_app. now left. }
  unfold satisfies in H1. simpl in H1. apply Z.leb_le in H1.
  rewrite value_lpSum, value_const, map_map in H1.
  eapply Z.le_trans; [|exact H1]. unfold nb_aretes_dans.
  assert (Hb : forall e, In e (aretes_du_cycle cycle) ->
                 val (X e) = 0 \/ val (X e) = 1).
  { intros e He. apply Hbin. rewrite EP. simpl. apply in_or_app. left.
    apply in_map. auto. }
  clear H1 Hincl Hin. induction (aretes_du_cycle cycle) as [|e l IH]; simpl.
  - lia.
  - assert (IH' := IH (fun a Ha => Hb a (or_intror Ha))).
    destruct (mem_edge e sol) eqn:E; simpl length.
    + apply mem_edge_In in E. rewrite Es in E. apply filter_In in E.
      destruct E as [_ E]. apply Z.eqb_eq in E. lia.
    + destruct (Hb e (or_introl Logic.eq_refl)); lia.
Qed.

(** Forced edges that are edges of the graph are in the solution. *)
Lemma sol_forcee (e : edge) :
  In e (ponts ++ edges_forcees) -> In (sorted_pair e) (all_edges G) ->
  In (sorted_pair e) sol.
Proof.
  intros He Hx.
  destruct (resoudre_ilp_iteration_Some _ _ _ _ _ _ Hsol) as (P & HP & Hst & Es).
  destruct (fiable k P Hst) as [Hbin Hc].
  destruct (modele_Ok _ _ _ _ _ HP) as (c4 & H4 & EP).
  set (val := snd (solver k P)) in *.
  assert (H1 : satisfies val (eq (single (X (sorted_pair e))) (const 1)) = true).
  { apply Hc. rewrite EP. simpl. right. apply in_or_app. right.
    apply in_or_app. left.
    apply (in_map (fun e => eq (single (X (sorted_pair e))) (const 1))).
    apply filter_In. split.
    - now apply nodup_In.
    - now apply mem_edge_In. }
  unfold satisfies in H1. simpl in H1. apply Z.eqb_eq in H1.
  rewrite value_single, value_const in H1.
  rewrite Es. apply filter_In. split; [assumption|]. now apply Z.eqb_eq.
Qed.

End Solution.

End Modele.

(* ===================================================================== *)
(** * Facts about the loop *)
(* ===================================================================== *)

Section BoucleFacts.

Variable solver : nat -> LpProblem -> Z * (var -> Z).
Variable nx_cycle_basis : Graph -> list (list node).
Variable choisir : nat -> Graph -> list edge -> Z -> list edge.
Variable G : Graph.
Variable ponts : list edge.
Variable partitions : Partitions.

Local Notation "'un_tour'" :=
  (tour solver nx_cycle_basis choisir G ponts partitions).
Local Notation "'la_boucle'" :=
  (boucle solver nx_cycle_basis choisir G ponts partitions).
Local Notation "'apres'" :=
  (etat_apres solver nx_cycle_basis choisir G ponts partitions).
Local Notation "'ilp' s" :=
  (resoudre_ilp_iteration solver nx_cycle_basis (S (iteration s)) G
     partitions ponts (edges_forcees s)) (at level 10, s at level 9).

(** The three ways out of a turn. *)
Lemma tour_Retour_None (s : etat) :
  ilp s = Ok None \/ ilp s = Ok (Some []) -> un_tour s = Ok (Retour None).
Proof.
  unfold tour. intros [-> | ->]; reflexivity.
Qed.

Lemma tour_Retour_Some (s : etat) (T : Graph) :
  un_tour s = Ok (Retour (Some T)) ->
  exists sol, ilp s = Ok (Some sol) /\ sol <> [] /\ T = arbre G sol /\
              is_connected T = Ok true.
Proof.
  unfold tour. intros H. apply bind_Ok in H.
  destruct H as ([[|e sol]|] & Hs & H); try discriminate.
  apply bind_Ok in H. destruct H as (c & Hc & H).
  destruct c.
  - injection H as <-. exists (e :: sol). repeat split; auto. discriminate.
  - apply bind_Ok in H. destruct H as (cs & _ & H). discriminate.
Qed.

Lemma tour_Suite (s s' : etat) :
  un_tour s = Ok (Suite s') ->
  exists sol candidates,
    ilp s = Ok (Some sol) /\ sol <> [] /\
    is_connected (arbre G sol) = Ok false /\
    candidats (edges G) (connected_components (arbre G sol)) = Ok candidates /\
    edges_forcees s' =
      match candidates with
      | [] => edges_forcees s
      | _ :: _ =>
          edges_forcees s ++
          choisir (S (iteration s)) (arbre G sol) candidates
            (Z.min (Z.of_nat (length candidates)) (n_quota s))
      end /\
    n_quota s' = (if n_quota s >? 1 then n_quota s - 1 else n_quota s) /\
    iteration s' = S (iteration s).
Proof.
  unfold tour. intros H. apply bind_Ok in H.
  destruct H as ([[|e sol]|] & Hs & H); try discriminate.
  apply bind_Ok in H. destruct H as (c & Hc & H).
  destruct c; [discriminate|].
  apply bind_Ok in H. destruct H as (cs & Hcs & [= <-]).
  exists (e :: sol), cs. simpl. repeat split; auto. discriminate.
Qed.

(** Turns and fuel. *)
Lemma etat_apres_iteration (i : nat) (s0 s : etat) :
  apres i s0 = Some s -> iteration s = (iteration s0 + i)%nat.
Proof.
  revert s. induction i as [|i IH]; simpl; intros s H.
  - injection H as <-. lia.
  - destruct (apres i s0) as [s1|]; [|discriminate].
    destruct (un_tour s1) as [[r|s2]|e] eqn:Et; try discriminate.
    injection H as <-. destruct (tour_Suite _ _ Et) as (? & ? & H).
    rewrite (IH s1 Logic.eq_refl) in H. lia.
Qed.

Lemma boucle_etat_apres (i : nat) (s0 s : etat) (fuel : nat) :
  apres i s0 = Some s -> la_boucle (i + fuel) s0 = la_boucle fuel s.
Proof.
  revert s fuel. induction i as [|i IH]; intros s fuel H; simpl in H.
  - now injection H as <-.
  - destruct (apres i s0) as [s1|]; [|discriminate].
    destruct (un_tour s1) as [[r|s2]|e] eqn:Et; try discriminate.
    injection H as <-.
    replace (S i + fuel)%nat with (i + S fuel)%nat by lia.
    rewrite (IH s1 (S fuel) Logic.eq_refl). simpl. now rewrite Et.
Qed.

(** A turn that returns ends the loop, whatever fuel is left. *)
Lemma boucle_retour (i : nat) (s0 s : etat) (r : option Graph) (fuel : nat) :
  apres i s0 = Some s -> un_tour s = Ok (Retour r) -> (i < fuel)%nat ->
  la_boucle fuel s0 = Some (Ok r).
Proof.
  intros Hs Ht Hf. replace fuel with (i + S (fuel - S i))%nat by lia.
  rewrite (boucle_etat_apres _ _ _ _ Hs). simpl. now rewrite Ht.
Qed.

Lemma etat_apres_S (i : nat) (s0 : etat) :
  apres (S i) s0 =
  match apres i s0 with
  | Some s => match un_tour s with Ok (Suite s') => Some s' | _ => None end
  | None => None
  end.
Proof. reflexivity. Qed.

Lemma etat_apres_decale (i : nat) (s0 s1 s : etat) :
  un_tour s0 = Ok (Suite s1) -> apres i s1 = Some s -> apres (S i) s0 = Some s.
Proof.
  intros Et. revert s. induction i as [|i IH]; intros s Hs.
  - simpl in *. injection Hs as <-. now rewrite Et.
  - rewrite etat_apres_S in Hs.
    destruct (apres i s1) as [s2|] eqn:E2; [|discriminate].
    rewrite etat_apres_S, (IH s2 Logic.eq_refl). exact Hs.
Qed.

(** A result of the loop is the result of one of its turns. *)
Lemma boucle_Ok (fuel : nat) (s0 : etat) (r : option Graph) :
  la_boucle fuel s0 = Some (Ok r) ->
  exists i s, (i < fuel)%nat /\ apres i s0 = Some s /\
              un_tour s = Ok (Retour r).
Proof.
  revert s0. induction fuel as [|fuel IH]; simpl; intros s0 H; [discriminate|].
  destruct (un_tour s0) as [[r'|s1]|e] eqn:Et.
  - injection H as <-. exists 0%nat, s0. repeat split; auto. lia.
  - destruct (IH s1 H) as (i & s & Hi & Hs & Hr).
    exists (S i), s. repeat split; auto; [lia|].
    eapply etat_apres_decale; eauto.
  - discriminate.
Qed.

(** The quota stays positive and only goes down. *)
Lemma quota_suite (s s' : etat) :
  un_tour s = Ok (Suite s') -> 1 <= n_quota s ->
  n_quota s' = Z.max 1 (n_quota s - 1) /\ 1 <= n_quota s' <= n_quota s.
Proof.
  intros Ht Hq. destruct (tour_Suite _ _ Ht) as (_ & _ & _ & _ & _ & _ & _ & E & _).
  rewrite E. destruct (Z.gtb_spec (n_quota s) 1); lia.
Qed.

Lemma quota_etat_apres (i : nat) (s0 s : etat) :
  apres i s0 = Some s -> 1 <= n_quota s0 -> 1 <= n_quota s <= n_quota s0.
Proof.
  revert s. induction i as [|i IH]; simpl; intros s H Hq.
  - injection H as <-. lia.
  - destruct (apres i s0) as [s1|]; [|discriminate].
    destruct (un_tour s1) as [[r|s2]|e] eqn:Et; try discriminate.
    injection H as <-. specialize (IH s1 Logic.eq_refl Hq).
    destruct (quota_suite _ _ Et); lia.
Qed.

End BoucleFacts.

Lemma quota_initial_pos (G : Graph) : 1 <= quota_initial G.
Proof. unfold quota_initial. lia. Qed.

(* ===================================================================== *)
(** * Facts about the repair step *)
(* ===================================================================== *)

(** ** The sort *)

Section Tri.

Variable key : edge -> Z.

Lemma insert_by_perm (e : edge) (l : list edge) :
  Permutation (insert_by key e l) (e :: l).
Proof.
  induction l as [|f l IH]; simpl; [reflexivity|].
  destruct (key e <=? key f); [reflexivity|].
  rewrite IH. apply perm_swap.
Qed.

Lemma sort_by_perm (l : list edge) : Permutation (sort_by key l) l.
Proof.
  induction l as [|e l IH]; simpl; [reflexivity|].
  rewrite insert_by_perm. now constructor.
Qed.

Lemma insert_by_sorted (e : edge) (l : list edge) :
  Sorted (fun a b => key a <= key b) l ->
  Sorted (fun a b => key a <= key b) (insert_by key e l).
Proof.
  induction l as [|f l IH]; simpl; intros H.
  - repeat constructor.
  - destruct (Z.leb_spec (key e) (key f)) as [Hle|Hgt].
    + constructor; [assumption|]. constructor. exact Hle.
    + inversion H as [|? ? Hs Hh]; subst. constructor; [auto|].
      destruct l as [|g l]; simpl.
      * constructor. lia.
      * destruct (key e <=? key g); constructor; [lia|].
        inversion Hh; subst. assumption.
Qed.

Lemma sort_by_sorted (l : list edge) :
  Sorted (fun a b => key a <= key b) (sort_by key l).
Proof.
  induction l as [|e l IH]; simpl; [constructor|]. now apply insert_by_sorted.
Qed.

(** Stability: edges of equal key keep their order. *)
Lemma insert_by_stable (k : Z) (e : edge) (l : list edge) :
  filter (fun a => key a =? k) (insert_by key e l) =
  filter (fun a => key a =? k) (e :: l).
Proof.
  induction l as [|f l IH]; [reflexivity|].
  cbn [insert_by]. destruct (Z.leb_spec (key e) (key f)) as [Hle|Hgt];
    [reflexivity|].
  cbn [filter] in *. rewrite IH.
  destruct (Z.eqb_spec (key e) k), (Z.eqb_spec (key f) k); try reflexivity.
  lia.
Qed.

Lemma sort_by_stable (k : Z) (l : list edge) :
  filter (fun a => key a =? k) (sort_by key l) = filter (fun a => key a =? k) l.
Proof.
  induction l as [|e l IH]; [reflexivity|].
  cbn [sort_by fold_right]. fold (sort_by key l).
  rewrite insert_by_stable. cbn [filter]. now rewrite IH.
Qed.

End Tri.

(** ** The candidates *)

Lemma candidats_Ok (es : list edge) (composantes : list (list node))
    (candidates : list edge) :
  candidats es composantes = Ok candidates ->
  candidates =
    map sorted_pair (filter (composantes_differentes composantes) es).
Proof.
  revert candidates. induction es as [|e es IH]; simpl; intros cs H.
  - now injection H as <-.
  - apply bind_Ok in H. destruct H as (i & Hi & H).
    apply bind_Ok in H. destruct H as (j & Hj & H).
    apply bind_Ok in H. destruct H as (rest & Hr & [= <-]).
    unfold composantes_differentes. rewrite Hi, Hj, (IH rest Hr).
    now destruct (Nat.eqb i j).
Qed.

Lemma index_of_Ok (v : node) (composantes : list (list node)) (i : nat) :
  (exists c, In c composantes /\ In v c) ->
  exists j, index_of v composantes i = Ok j.
Proof.
  revert i. induction composantes as [|c cs IH]; simpl; intros i (c' & Hc & Hv);
    [tauto|].
  destruct (mem_node v c) eqn:E; [eauto|].
  destruct Hc as [<-|Hc].
  - apply mem_node_false in E. tauto.
  - apply IH. eauto.
Qed.

Lemma index_of_same (u v : node) (composantes : list (list node)) (i : nat) :
  (forall c, In c composantes -> (In u c <-> In v c)) ->
  index_of u composantes i = index_of v composantes i.
Proof.
  revert i. induction composantes as [|c cs IH]; simpl; intros i H;
    [reflexivity|].
  assert (E : mem_node u c = mem_node v c).
  { apply eq_true_iff_eq. rewrite !mem_node_In. apply H. now left. }
  rewrite E. destruct (mem_node v c); [reflexivity|]. apply IH. auto.
Qed.

Lemma index_of_nth (v : node) (composantes : list (list node)) (i j : nat) :
  index_of v composantes i = Ok j ->
  (i <= j)%nat /\
  exists c, nth_error composantes (j - i) = Some c /\ In v c.
Proof.
  revert i. induction composantes as [|c cs IH]; simpl; intros i H;
    [discriminate|].
  destruct (mem_node v c) eqn:E.
  - injection H as <-. split; [lia|]. rewrite Nat.sub_diag. simpl.
    exists c. split; [reflexivity | now apply mem_node_In].
  - destruct (IH _ H) as (Hle & c' & Hn & Hv). split; [lia|].
    exists c'. split; [|assumption].
    replace (j - i)%nat with (S (j - S i)) by lia. exact Hn.
Qed.

(** The test [c_u != c_v] holds exactly when no path joins the two
    nodes. *)
Lemma composantes_differentes_spec (T : Graph) (u v : node) :
  wf T -> In u (nodes T) -> In v (nodes T) ->
  composantes_differentes (connected_components T) (u, v) = true
  <-> ~ path T u v.
Proof.
  intros W Hu Hv. unfold composantes_differentes. simpl.
  destruct (index_of_Ok u _ 0%nat (connected_components_cover T u Hu))
    as (i & Hi).
  destruct (index_of_Ok v _ 0%nat (connected_components_cover T v Hv))
    as (j & Hj).
  rewrite Hi, Hj. rewrite negb_true_iff, Nat.eqb_neq. split.
  - intros Hij Hp. apply Hij.
    assert (E : index_of u (connected_components T) 0
                = index_of v (connected_components T) 0).
    { apply index_of_same. intros c Hc. split; intros H.
      - now apply (BfsComplete.component_joined T c u v W Hc H).
      - apply (BfsComplete.component_joined T c v u W Hc H).
        now apply path_sym. }
    congruence.
  - intros Hp ->.
    destruct (index_of_nth _ _ _ _ Hi) as (_ & c & Hn & Huc).
    destruct (index_of_nth _ _ _ _ Hj) as (_ & c' & Hn' & Hvc).
    assert (c' = c) by congruence. subst c'.
    apply Hp. apply (BfsComplete.component_joined T c u v W); auto.
    eapply nth_error_In; eauto.
Qed.

(** No [StopIteration] when the components cover the end points. *)
Lemma candidats_total (es : list edge) (composantes : list (list node)) :
  (forall e, In e es ->
     (exists c, In c composantes /\ In (fst e) c) /\
     (exists c, In c composantes /\ In (snd e) c)) ->
  candidats es composantes =
    Ok (map sorted_pair (filter (composantes_differentes composantes) es)).
Proof.
  induction es as [|e es IH]; simpl; intros H; [reflexivity|].
  destruct (H e (or_introl Logic.eq_refl)) as [Hu Hv].
  destruct (index_of_Ok _ _ 0%nat Hu) as (i & Hi).
  destruct (index_of_Ok _ _ 0%nat Hv) as (j & Hj).
  unfold composantes_differentes. rewrite Hi, Hj. simpl.
  rewrite IH by auto. simpl. now destruct (Nat.eqb i j).
Qed.

(** ** The tree of a solution made of edges of the graph *)

Lemma arbre_spec (G : Graph) (sol : list edge) :
  wf G -> NoDup sol -> incl sol (all_edges G) ->
  wf (arbre G sol) /\ nodes (arbre G sol) = nodes G /\
  total_degree (arbre G sol) = 2 * Z.of_nat (length sol) /\
  (forall a b, In b (adj (arbre G sol) a) <-> In (a, b) sol \/ In (b, a) sol).
Proof.
  intros W Hnd Hincl. unfold arbre.
  set (B := add_nodes_from empty (nodes G)).
  assert (WB : wf B) by (apply wf_add_nodes_from, wf_empty).
  assert (NB : nodes B = nodes G)
    by (apply nodes_add_nodes_from_empty, (wf_nodes _ W)).
  assert (AB : forall a, adj B a = [])
    by (intros a; unfold B; now rewrite adj_add_nodes_from).
  assert (DB : total_degree B = 0).
  { unfold total_degree. clear NB. induction (nodes B) as [|v l IH]; simpl;
      [reflexivity|].
    rewrite IH. unfold degree. now rewrite AB. }
  destruct (add_edges_from_fresh sol B WB Hnd) as (W' & N' & D' & A').
  { intros e He. destruct (In_all_edges G e W (Hincl e He)) as (H1 & H2 & _ & H4).
    rewrite NB, AB. auto. }
  split; [assumption|]. split; [congruence|]. split; [lia|].
  intros a b. rewrite A', AB. simpl. tauto.
Qed.

(** The candidates are the edges of the graph whose end points no path of
    the tree joins. *)
Lemma candidates_spec (G : Graph) (sol : list edge) (e : edge) :
  wf G -> NoDup sol -> incl sol (all_edges G) ->
  In e (map sorted_pair
          (filter (composantes_differentes
                     (connected_components (arbre G sol))) (edges G)))
  <-> exists a b, In (a, b) (edges G) /\ e = sorted_pair (a, b) /\
                  ~ path (arbre G sol) a b.
Proof.
  intros W Hnd Hincl.
  destruct (arbre_spec G sol W Hnd Hincl) as (WT & NT & _ & _).
  assert (Hs : forall a b, In (a, b) (edges G) ->
            (composantes_differentes (connected_components (arbre G sol))
               (a, b) = true <-> ~ path (arbre G sol) a b)).
  { intros a b Hab. destruct (In_edges G a b W Hab) as [Ha Hb].
    apply (wf_closed _ W) in Hb.
    apply composantes_differentes_spec; auto; now rewrite NT. }
  rewrite in_map_iff. split.
  - intros ([a b] & <- & H). apply filter_In in H. destruct H as [Hab H].
    exists a, b. repeat split; auto. now apply Hs.
  - intros (a & b & Hab & -> & Hp). exists (a, b). split; [reflexivity|].
    apply filter_In. split; [assumption|]. now apply Hs.
Qed.

(* ===================================================================== *)
(** * Properties of the solve loop and of the model *)
(* ===================================================================== *)

Lemma length_aretes_du_cycle (cycle : list node) :
  length (aretes_du_cycle cycle) = length cycle.
Proof. unfold aretes_du_cycle. now rewrite length_map, length_seq. Qed.

Lemma aretes_du_cycle_sorted (cycle : list node) (e : edge) :
  In e (aretes_du_cycle cycle) -> fst e <= snd e.
Proof.
  unfold aretes_du_cycle. intros H. apply in_map_iff in H.
  destruct H as (i & <- & _). apply sorted_pair_le.
Qed.

Section Proprietes.

Variable solver : nat -> LpProblem -> Z * (var -> Z).
Variable nx_bridges : Graph -> list edge.
Variable nx_cycle_basis : Graph -> list (list node).

Local Notation "'ponts_de' G" := (fst (analyser_structure nx_bridges G))
  (at level 10, G at level 9).
Local Notation "'partitions_de' G" := (snd (analyser_structure nx_bridges G))
  (at level 10, G at level 9).

(** A solution of a turn, on a well-formed graph, has no repeated edge. *)
Lemma sol_NoDup (k : nat) (G : Graph) (partitions : Partitions)
    (ponts forcees sol : list edge) :
  wf G ->
  resoudre_ilp_iteration solver nx_cycle_basis k G partitions ponts forcees
    = Ok (Some sol) ->
  NoDup sol.
Proof.
  intros W H.
  destruct (resoudre_ilp_iteration_Some _ _ _ _ _ _ _ _ H) as (P & _ & _ & ->).
  apply NoDup_filter, NoDup_all_edges, W.
Qed.

(** An edge of the tree of a solution, written in sorted order, is an
    edge of the solution. *)
Lemma has_edge_arbre (G : Graph) (sol : list edge) (e : edge) :
  wf G -> NoDup sol -> incl sol (all_edges G) -> fst e <= snd e ->
  has_edge (arbre G sol) (fst e) (snd e) = mem_edge e sol.
Proof.
  intros W Hnd Hincl Hle.
  destruct (arbre_spec G sol W Hnd Hincl) as (_ & _ & _ & A).
  apply eq_true_iff_eq. unfold has_edge.
  rewrite mem_node_In, mem_edge_In, A. destruct e as [a b]. simpl in *.
  split; [|tauto]. intros [H|H]; [assumption|].
  destruct (In_all_edges G (b, a) W (Hincl _ H)) as (_ & _ & _ & Hba).
  simpl in Hba. assert (a = b) by lia. now subst.
Qed.

(** Two consecutive states are linked by a turn that goes on. *)
Lemma etat_iteration_suite
    (choisir : nat -> Graph -> list edge -> Z -> list edge)
    (G : Graph) (i : nat) (s s' : etat) :
  etat_iteration solver nx_bridges nx_cycle_basis choisir G i = Some s ->
  etat_iteration solver nx_bridges nx_cycle_basis choisir G (S i) = Some s' ->
  tour solver nx_cycle_basis choisir G (ponts_de G) (partitions_de G) s
    = Ok (Suite s').
Proof.
  unfold etat_iteration. intros Hs Hs'. rewrite etat_apres_S, Hs in Hs'.
  destruct (tour solver nx_cycle_basis choisir G (ponts_de G)
              (partitions_de G) s) as [[r|s2]|e]; congruence.
Qed.

(** C1.  When the solve loop returns a graph [T] for [G], [T] has the
    nodes of [G], its edges are edges of [G], it is connected, and (the
    solver keeping its contract) it has one edge less than nodes.  This
    holds for the scored loop and for the random one. *)
Theorem mbvst_arbre_couvrant
    (choisir : nat -> Graph -> list edge -> Z -> list edge)
    (fuel : nat) (G T : Graph) :
  wf G ->
  resoudre_mbvst_avec solver nx_bridges nx_cycle_basis choisir fuel G
    = Some (Ok (Some T)) ->
  nodes T = nodes G /\
  (forall u v, In v (adj T u) -> In v (adj G u)) /\
  connected T /\
  (solveur_fiable solver -> number_of_edges T = number_of_nodes G - 1).
Proof.
  intros W H. unfold resoudre_mbvst_avec in H.
  destruct (boucle_Ok _ _ _ _ _ _ _ _ _ H) as (i & s & _ & _ & Ht).
  destruct (tour_Retour_Some _ _ _ _ _ _ _ _ Ht) as (sol & Hsol & _ & -> & Hc).
  pose proof (sol_NoDup _ _ _ _ _ _ W Hsol) as Hnd.
  pose proof (sol_incl _ _ _ _ _ _ _ _ Hsol) as Hincl.
  destruct (arbre_spec G sol W Hnd Hincl) as (WT & NT & DT & AT).
  split; [assumption|]. split; [|split].
  - intros u v Huv. apply AT in Huv. destruct Huv as [Huv|Huv];
      destruct (In_all_edges G _ W (Hincl _ Huv)) as (_ & _ & Ha & _);
      simpl in Ha; [assumption | now apply (wf_sym _ W)].
  - now apply is_connected_sound.
  - intros Hf. pose proof (sol_length _ _ Hf _ _ _ _ _ _ Hsol) as Hlen.
    unfold number_of_edges. rewrite DT, <- Hlen.
    rewrite Z.mul_comm. apply Z.div_mul. lia.
Qed.

(** C2.  No cycle of the basis is selected whole: every candidate
    solution, and the tree finally returned, holds at most [|C| - 1] of
    the edges of a cycle [C] of [nx.cycle_basis(G)]. *)
Theorem cycle_de_base_jamais_complet
    (choisir : nat -> Graph -> list edge -> Z -> list edge)
    (G : Graph) (cycle : list node) :
  solveur_fiable solver -> In cycle (nx_cycle_basis G) ->
  (forall i sol,
     candidat_iteration solver nx_bridges nx_cycle_basis choisir G i sol ->
     nb_aretes_dans sol (aretes_du_cycle cycle) <= Z.of_nat (length cycle) - 1)
  /\
  (forall fuel T,
     wf G ->
     resoudre_mbvst_avec solver nx_bridges nx_cycle_basis choisir fuel G
       = Some (Ok (Some T)) ->
     Z.of_nat (length (filter (fun e => has_edge T (fst e) (snd e))
                         (aretes_du_cycle cycle)))
     <= Z.of_nat (length cycle) - 1).
Proof.
  intros Hf Hcy. rewrite <- (length_aretes_du_cycle cycle). split.
  - intros i sol (s & _ & Hsol). eapply sol_cycle; eauto.
  - intros fuel T W H. unfold resoudre_mbvst_avec in H.
    destruct (boucle_Ok _ _ _ _ _ _ _ _ _ H) as (i & s & _ & _ & Ht).
    destruct (tour_Retour_Some _ _ _ _ _ _ _ _ Ht) as (sol & Hsol & _ & -> & _).
    pose proof (sol_NoDup _ _ _ _ _ _ W Hsol) as Hnd.
    pose proof (sol_incl _ _ _ _ _ _ _ _ Hsol) as Hincl.
    rewrite (filter_ext_in _ (fun e => mem_edge e sol)).
    + eapply sol_cycle; eauto.
    + intros e He. apply has_edge_arbre; auto.
      eapply aretes_du_cycle_sorted; eauto.
Qed.

(** C4.  The quota starts at [max(1, floor(sqrt(n) / 2))]; a turn whose
    candidate is disconnected replaces it by [max(1, quota - 1)]; so it
    never increases and never goes below 1. *)
Theorem quota_decroissant_minore
    (choisir : nat -> Graph -> list edge -> Z -> list edge) (G : Graph) :
  let n := number_of_nodes G in
  let r := Z.sqrt n / 2 in
  n_quota (etat_initial G) = Z.max 1 r /\
  4 * r * r <= n < 4 * (r + 1) * (r + 1) /\
  forall i s,
    etat_iteration solver nx_bridges nx_cycle_basis choisir G i = Some s ->
    1 <= n_quota s /\
    forall s',
      etat_iteration solver nx_bridges nx_cycle_basis choisir G (S i) = Some s' ->
      n_quota s' = Z.max 1 (n_quota s - 1) /\ n_quota s' <= n_quota s.
Proof.
  intros n r. split; [reflexivity|]. split.
  - assert (Hn : 0 <= n) by (unfold n, number_of_nodes; lia).
    pose proof (Z.sqrt_spec n Hn) as Hs. cbv zeta in Hs.
    pose proof (Z.sqrt_nonneg n) as Hs0.
    assert (Hd : 2 * r <= Z.sqrt n < 2 * r + 2).
    { unfold r. pose proof (Z.div_mod (Z.sqrt n) 2).
      pose proof (Z.mod_pos_bound (Z.sqrt n) 2). lia. }
    nia.
  - intros i s Hs.
    pose proof (quota_etat_apres _ _ _ _ _ _ _ _ _ Hs (quota_initial_pos G)) as Hq.
    split; [lia|]. intros s' Hs'.
    pose proof (etat_iteration_suite _ _ _ _ _ Hs Hs') as Et.
    destruct (quota_suite _ _ _ _ _ _ _ _ Et); lia.
Qed.

(** C5.  The forced edges of a turn are still forced at the next turn:
    the list only grows at its end.  This holds for every way of drawing
    the new edges, the scored one and the random one. *)
Theorem aretes_forcees_croissantes
    (choisir : nat -> Graph -> list edge -> Z -> list edge)
    (G : Graph) (i : nat) (s s' : etat) :
  etat_iteration solver nx_bridges nx_cycle_basis choisir G i = Some s ->
  etat_iteration solver nx_bridges nx_cycle_basis choisir G (S i) = Some s' ->
  (exists nouvelles, edges_forcees s' = edges_forcees s ++ nouvelles) /\
  incl (edges_forcees s) (edges_forcees s').
Proof.
  intros Hs Hs'. pose proof (etat_iteration_suite _ _ _ _ _ Hs Hs') as Et.
  destruct (tour_Suite _ _ _ _ _ _ _ _ Et)
    as (sol & cands & _ & _ & _ & _ & E & _).
  assert (H : exists nouvelles, edges_forcees s' = edges_forcees s ++ nouvelles).
  { destruct cands; rewrite E; [exists []; now rewrite app_nil_r | eauto]. }
  split; [assumption|]. destruct H as (l & ->). apply incl_appl, incl_refl.
Qed.

(** C6.  Every bridge of [G] is in every candidate solution. *)
Theorem ponts_dans_tout_candidat
    (choisir : nat -> Graph -> list edge -> Z -> list edge)
    (G : Graph) (i : nat) (sol : list edge) (e : edge) :
  solveur_fiable solver ->
  (forall b, In b (nx_bridges G) -> In (sorted_pair b) (all_edges G)) ->
  candidat_iteration solver nx_bridges nx_cycle_basis choisir G i sol ->
  In e (nx_bridges G) ->
  In (sorted_pair e) sol.
Proof.
  intros Hf Hb (s & _ & Hsol) He.
  eapply sol_forcee; eauto. apply in_or_app. left. exact He.
Qed.

(** A turn on a solution that is not connected goes on to the repair. *)
Lemma tour_reparation
    (choisir : nat -> Graph -> list edge -> Z -> list edge)
    (G : Graph) (ponts : list edge) (partitions : Partitions)
    (s : etat) (sol : list edge) :
  wf G ->
  resoudre_ilp_iteration solver nx_cycle_basis (S (iteration s)) G partitions
    ponts (edges_forcees s) = Ok (Some sol) ->
  sol <> [] ->
  is_connected (arbre G sol) = Ok false ->
  let T := arbre G sol in
  let candidates :=
    map sorted_pair
      (filter (composantes_differentes (connected_components T)) (edges G)) in
  tour solver nx_cycle_basis choisir G ponts partitions s =
  Ok (Suite
        {| edges_forcees :=
             match candidates with
             | [] => edges_forcees s
             | _ :: _ =>
                 edges_forcees s ++
                 choisir (S (iteration s)) T candidates
                   (Z.min (Z.of_nat (length candidates)) (n_quota s))
             end;
           n_quota := if n_quota s >? 1 then n_quota s - 1 else n_quota s;
           iteration := S (iteration s) |}).
Proof.
  intros W Hsol Hne Hc T candidates.
  pose proof (sol_NoDup _ _ _ _ _ _ W Hsol) as Hnd.
  pose proof (sol_incl _ _ _ _ _ _ _ _ Hsol) as Hincl.
  destruct (arbre_spec G sol W Hnd Hincl) as (_ & NT & _ & _).
  assert (Hcand : candidats (edges G) (connected_components T) = Ok candidates).
  { apply candidats_total. intros [a b] He.
    destruct (In_edges G a b W He) as [Ha Hb].
    apply (wf_closed _ W) in Hb. simpl.
    split; apply connected_components_cover; unfold T; now rewrite NT. }
  unfold tour. rewrite Hsol. cbn [bind]. unfold T in Hcand.
  destruct sol as [|e sol']; [congruence|].
  rewrite Hc. cbn [bind]. rewrite Hcand. reflexivity.
Qed.

(** C3.  Scored repair.  When the candidate of a turn is not connected
    and some edge of the graph joins two of its components, the turn
    goes on, and the forced edges gain, at their end, the first
    [min(|candidates|, quota)] candidates in the stable ascending order
    of the sum of the degrees of their end points in the candidate
    tree. *)
Theorem reparation_par_score (G : Graph) (i : nat) (sol : list edge) :
  wf G ->
  candidat_iteration solver nx_bridges nx_cycle_basis choisir_score G i sol ->
  sol <> [] ->
  let T := arbre G sol in
  let candidates :=
    map sorted_pair
      (filter (composantes_differentes (connected_components T)) (edges G)) in
  let score := fun e : edge => degree T (fst e) + degree T (snd e) in
  is_connected T = Ok false ->
  candidates <> [] ->
  (forall e, In e candidates <->
     exists a b, In (a, b) (edges G) /\ e = sorted_pair (a, b) /\
                 ~ path T a b) /\
  exists s s' tri,
    etat_iteration solver nx_bridges nx_cycle_basis choisir_score G i = Some s /\
    etat_iteration solver nx_bridges nx_cycle_basis choisir_score G (S i)
      = Some s' /\
    Permutation tri candidates /\
    Sorted (fun a b => score a <= score b) tri /\
    (forall k, filter (fun e => score e =? k) tri =
               filter (fun e => score e =? k) candidates) /\
    edges_forcees s' =
      edges_forcees s ++
      firstn (Z.to_nat (Z.min (Z.of_nat (length candidates)) (n_quota s))) tri.
Proof.
  intros W (s & Hs & Hsol) Hne T candidates score Hc Hcand.
  split.
  { intros e. apply candidates_spec; auto.
    - eapply sol_NoDup; eauto.
    - eapply sol_incl; eauto. }
  pose proof (tour_reparation choisir_score G _ _ s sol W Hsol Hne Hc) as Ht.
  cbv zeta in Ht. fold T in Ht. fold candidates in Ht.
  pose proof Hs as Hq. unfold etat_iteration in Hq.
  apply quota_etat_apres in Hq; [|apply quota_initial_pos].
  eexists s, _, (sort_by score candidates).
  split; [exact Hs|]. split.
  { unfold etat_iteration in *. rewrite etat_apres_S, Hs, Ht. reflexivity. }
  split; [apply sort_by_perm|]. split; [apply sort_by_sorted|].
  split; [intros k; apply sort_by_stable|].
  simpl. destruct candidates as [|c cs] eqn:Ec; [congruence|].
  f_equal. unfold choisir_score, slice_to.
  destruct (Z.ltb_spec (Z.min (Z.of_nat (length (c :: cs))) (n_quota s)) 0);
    [lia | reflexivity].
Qed.

(** C7.  In every model built for [G], a node of degree more than 2 has
    the sum of the variables of its incident edges bounded by
    [2 + (deg - 2) * y], a node of degree at most 2 has it bounded by 2,
    and the objective, minimised, is the sum of the [y] of the nodes of
    degree more than 2. *)
Theorem contraintes_de_degre (G : Graph) (ponts forcees : list edge)
    (P : LpProblem) :
  modele nx_cycle_basis G (partitions_de G) ponts forcees = Ok P ->
  direction_of P = LpMinimize /\
  objective P = lpSum (map Y (filter (fun v => 2 <? degree G v) (nodes G))) /\
  forall v, In v (nodes G) ->
    let incidentes :=
      filter (fun e => (fst e =? v) || (snd e =? v)) (all_edges G) in
    (2 < degree G v ->
       In (le (lpSum (map X incidentes))
              {| terms := [(degree G v - 2, Y v)]; constant := 2 |})
          (constraints P) /\
       forall val, feasible val P ->
         sum_Z (map (fun e => val (X e)) incidentes)
         <= 2 + (degree G v - 2) * val (Y v)) /\
    (degree G v <= 2 ->
       In (le (lpSum (map X incidentes)) (const 2)) (constraints P) /\
       forall val, feasible val P ->
         sum_Z (map (fun e => val (X e)) incidentes) <= 2).
Proof.
  intros HP. destruct (modele_Ok _ _ _ _ _ _ HP) as (c4 & _ & EP).
  destruct (partitions_filter nx_bridges G) as (E01 & E2 & _).
  split; [now rewrite EP|].
  split; [rewrite EP; cbn [objective]; now rewrite E2|].
  intros v Hv incidentes.
  assert (Hin : In (contrainte_degre G (partitions_de G) v) (constraints P)).
  { rewrite EP. cbn [constraints].
    right. apply in_or_app. right. apply in_or_app. right. now apply in_map. }
  clear EP.
  unfold contrainte_degre in Hin. fold incidentes in Hin.
  split; intros Hd.
  - assert (E : mem_node v (V2 (partitions_de G)) = true).
    { apply mem_node_In. rewrite E2. apply filter_In. split; [assumption|].
      now apply Z.ltb_lt. }
    rewrite E in Hin. split; [exact Hin|].
    intros val [_ Hc]. specialize (Hc _ Hin). unfold satisfies in Hc.
    cbn [csense lhs rhs le] in Hc. apply Z.leb_le in Hc.
    rewrite value_lpSum, map_map in Hc. unfold value in Hc. simpl in Hc. lia.
  - assert (E : mem_node v (V2 (partitions_de G)) = false).
    { apply mem_node_false. rewrite E2. intros H. apply filter_In in H.
      destruct H as [_ H]. apply Z.ltb_lt in H. lia. }
    assert (E' : mem_node v (V01 (partitions_de G)) = true).
    { apply mem_node_In. rewrite E01. apply filter_In. split; [assumption|].
      now apply Z.leb_le. }
    rewrite E, E' in Hin. split; [exact Hin|].
    intros val [_ Hc]. specialize (Hc _ Hin). unfold satisfies in Hc.
    cbn [csense lhs rhs le] in Hc. apply Z.leb_le in Hc.
    now rewrite value_lpSum, map_map, value_const in Hc.
Qed.

(** A status other than 1 makes [resoudre_ilp_iteration] return [None]. *)
Lemma resoudre_ilp_iteration_None (k : nat) (G : Graph)
    (partitions : Partitions) (ponts forcees : list edge) (P : LpProblem) :
  modele nx_cycle_basis G partitions ponts forcees = Ok P ->
  fst (solver k P) <> 1 ->
  resoudre_ilp_iteration solver nx_cycle_basis k G partitions ponts forcees
    = Ok None.
Proof.
  intros HP Hst. unfold resoudre_ilp_iteration. rewrite HP. simpl.
  destruct (Z.eqb_spec (fst (solver k P)) 1); [contradiction | reflexivity].
Qed.

(** C8.  When the solver reports a status other than optimal at some
    turn, the loop ends at that turn and returns [None]. *)
Theorem infaisable_retourne_None
    (choisir : nat -> Graph -> list edge -> Z -> list edge)
    (G : Graph) (i : nat) (s : etat) (P : LpProblem) :
  etat_iteration solver nx_bridges nx_cycle_basis choisir G i = Some s ->
  modele nx_cycle_basis G (partitions_de G) (ponts_de G) (edges_forcees s)
    = Ok P ->
  fst (solver (S (iteration s)) P) <> 1 ->
  etat_iteration solver nx_bridges nx_cycle_basis choisir G (S i) = None /\
  forall fuel, (i < fuel)%nat ->
    resoudre_mbvst_avec solver nx_bridges nx_cycle_basis choisir fuel G
      = Some (Ok None).
Proof.
  intros Hs HP Hst.
  assert (Ht : tour solver nx_cycle_basis choisir G (ponts_de G)
                 (partitions_de G) s = Ok (Retour None)).
  { apply tour_Retour_None. left. now apply resoudre_ilp_iteration_None with P. }
  split.
  - unfold etat_iteration in *. now rewrite etat_apres_S, Hs, Ht.
  - intros fuel Hf. unfold resoudre_mbvst_avec.
    eapply boucle_retour; eauto.
Qed.

(** C10.  When the solver reports optimal and no edge has value 1, the
    loop returns [None] as it does for an infeasible model; with a
    solver that keeps its contract this happens only on a graph of one
    node. *)
Theorem optimal_vide_retourne_None
    (choisir : nat -> Graph -> list edge -> Z -> list edge)
    (G : Graph) (i : nat) (s : etat) (P : LpProblem) :
  etat_iteration solver nx_bridges nx_cycle_basis choisir G i = Some s ->
  modele nx_cycle_basis G (partitions_de G) (ponts_de G) (edges_forcees s)
    = Ok P ->
  fst (solver (S (iteration s)) P) = 1 ->
  filter (fun e => snd (solver (S (iteration s)) P) (X e) =? 1) (all_edges G)
    = [] ->
  (forall fuel, (i < fuel)%nat ->
     resoudre_mbvst_avec solver nx_bridges nx_cycle_basis choisir fuel G
       = Some (Ok None)) /\
  (solveur_fiable solver -> number_of_nodes G = 1).
Proof.
  intros Hs HP Hst Hvide.
  assert (Hsol : resoudre_ilp_iteration solver nx_cycle_basis (S (iteration s))
                   G (partitions_de G) (ponts_de G) (edges_forcees s)
                 = Ok (Some [])).
  { unfold resoudre_ilp_iteration. rewrite HP. simpl.
    rewrite Hst, Hvide. reflexivity. }
  split.
  - intros fuel Hf. unfold resoudre_mbvst_avec.
    eapply boucle_retour; eauto. apply tour_Retour_None. now right.
  - intros Hfi. pose proof (sol_length _ _ Hfi _ _ _ _ _ _ Hsol) as H.
    simpl in H. lia.
Qed.

End Proprietes.

(** Dropping an element that fails a test changes nothing to the distinct
    elements that pass it. *)
Lemma filter_nodup_remove (p : edge -> bool) (e : edge) (l : list edge) :
  p e = false ->
  filter p (nodup edge_eq_dec (remove edge_eq_dec e l)) =
  filter p (nodup edge_eq_dec l).
Proof.
  intros Hp. induction l as [|a l IH]; [reflexivity|].
  cbn [nodup remove]. destruct (edge_eq_dec e a) as [<-|Hne].
  - rewrite IH. destruct (in_dec edge_eq_dec e l); [reflexivity|].
    cbn [filter]. now rewrite Hp.
  - cbn [nodup].
    destruct (in_dec edge_eq_dec a l) as [Hin|Hin];
      destruct (in_dec edge_eq_dec a (remove edge_eq_dec e l)) as [Hin'|Hin'].
    + exact IH.
    + exfalso. apply Hin'. apply in_in_remove; auto.
    + exfalso. apply Hin. now apply in_remove in Hin'.
    + cbn [filter]. now rewrite IH.
Qed.

(** C9.  A forced edge (bridge or reconnection edge) that is not an edge
    of the graph is skipped: the model is the one built without it, with
    no error, and no constraint fixes its variable. *)
Theorem arete_forcee_absente_ignoree
    (nx_cycle_basis : Graph -> list (list node))
    (G : Graph) (partitions : Partitions) (ponts forcees : list edge)
    (e : edge) :
  ~ In (sorted_pair e) (all_edges G) ->
  modele nx_cycle_basis G partitions ponts forcees =
  modele nx_cycle_basis G partitions
    (remove edge_eq_dec e ponts) (remove edge_eq_dec e forcees) /\
  forall P, modele nx_cycle_basis G partitions ponts forcees = Ok P ->
    ~ In (eq (single (X (sorted_pair e))) (const 1)) (constraints P).
Proof.
  intros Habs. split.
  - unfold modele.
    destruct (mapM (contrainte_cycle G) (nx_cycle_basis G)) as [c4|err];
      [|reflexivity].
    cbn [bind]. rewrite <- remove_app, filter_nodup_remove; [reflexivity|].
    destruct (mem_edge (sorted_pair e) (all_edges G)) eqn:E; [|reflexivity].
    apply mem_edge_In in E. contradiction.
  - intros P HP. destruct (modele_Ok _ _ _ _ _ _ HP) as (c4 & H4 & ->).
    cbn [constraints]. intros [H|H].
    + injection H as H _. destruct (all_edges G) as [|a [|b l]] eqn:Ea;
        try discriminate.
      injection H as Ha. apply Habs. left. exact Ha.
    + apply in_app_or in H. destruct H as [H|H].
      * clear HP. revert c4 H4 H.
        induction (nx_cycle_basis G) as [|cy l IH]; simpl; intros c4 H4 H.
        -- injection H4 as <-. destruct H.
        -- apply bind_Ok in H4. destruct H4 as (c & Hc & H4).
           apply bind_Ok in H4. destruct H4 as (cs & Hcs & [= <-]).
           destruct H as [->|H]; [|eauto].
           unfold contrainte_cycle in Hc. apply bind_Ok in Hc.
           destruct Hc as (xs & _ & Hc). discriminate.
      * apply in_app_or in H. destruct H as [H|H].
        -- apply in_map_iff in H. destruct H as (f & Hf & H).
           assert (Hf' : sorted_pair f = sorted_pair e)
             by (unfold eq, single in Hf; congruence).
           apply filter_In in H. destruct H as [_ H].
           apply mem_edge_In in H. rewrite Hf' in H. contradiction.
        -- apply in_map_iff in H. destruct H as (v & Hv & _).
           unfold contrainte_degre in Hv.
           destruct (mem_node v (V2 partitions));
             [|destruct (mem_node v (V01 partitions))]; discriminate.
Qed.

(* ===================================================================== *)
(** * The scenarios, run *)
(* ===================================================================== *)

Lemma wf_G_triangle : wf G_triangle.
Proof. apply wf_add_edges_from, wf_add_nodes_from, wf_empty. Qed.

Lemma wf_G_theta : wf G_theta.
Proof. apply wf_add_edges_from, wf_add_nodes_from, wf_empty. Qed.

(** On the triangle with a pendant edge the first turn succeeds. *)
Example triangle_resolu :
  resoudre_mbvst (solveur_propose valeur_chemin) ponts_triangle cycles_triangle
    1 G_triangle
  = Some (Ok (Some (arbre G_triangle [(1, 2); (2, 3); (3, 4)]))).
Proof. vm_compute. reflexivity. Qed.

(** On the second graph the first candidate is the square, the repair
    forces the edge 1-5, and the second turn succeeds. *)
Example theta_premier_candidat :
  candidat_iteration (solveur_propose valeur_theta) ponts_theta cycles_theta
    choisir_score G_theta 0 carre_theta.
Proof. exists (etat_initial G_theta). split; vm_compute; reflexivity. Qed.

Example theta_carre_non_connexe :
  is_connected (arbre G_theta carre_theta) = Ok false.
Proof. vm_compute. reflexivity. Qed.

Example theta_candidates :
  map sorted_pair
    (filter (composantes_differentes
               (connected_components (arbre G_theta carre_theta)))
       (edges G_theta))
  = [(1, 5); (4, 5)].
Proof. vm_compute. reflexivity. Qed.

Example theta_apres_reparation :
  etat_iteration (solveur_propose valeur_theta) ponts_theta cycles_theta
    choisir_score G_theta 1
  = Some {| edges_forcees := [(1, 5)]; n_quota := 1; iteration := 1 |}.
Proof. vm_compute. reflexivity. Qed.

Example theta_resolu :
  resoudre_mbvst (solveur_propose valeur_theta) ponts_theta cycles_theta
    2 G_theta
  = Some (Ok (Some (arbre G_theta chemin_theta))).
Proof. vm_compute. reflexivity. Qed.

Lemma mbvst_arbre_couvrant_witness :
  let T := arbre G_theta chemin_theta in
  nodes T = nodes G_theta /\
  (forall u v, In v (adj T u) -> In v (adj G_theta u)) /\
  connected T /\
  number_of_edges T = number_of_nodes G_theta - 1.
Proof.
  destruct (mbvst_arbre_couvrant (solveur_propose valeur_theta) ponts_theta
              cycles_theta choisir_score 2 G_theta (arbre G_theta chemin_theta)
              wf_G_theta theta_resolu) as (H1 & H2 & H3 & H4).
  split; [exact H1|]. split; [exact H2|]. split; [exact H3|].
  exact (H4 (solveur_propose_fiable valeur_theta)).
Defined.

Lemma cycle_de_base_jamais_complet_witness :
  nb_aretes_dans carre_theta (aretes_du_cycle [1; 2; 3]) <= 3 - 1 /\
  Z.of_nat
    (length (filter (fun e => has_edge (arbre G_theta chemin_theta)
                                (fst e) (snd e))
               (aretes_du_cycle [1; 2; 3]))) <= 3 - 1.
Proof.
  destruct (cycle_de_base_jamais_complet (solveur_propose valeur_theta)
              ponts_theta cycles_theta choisir_score G_theta [1; 2; 3]
              (solveur_propose_fiable valeur_theta)
              (or_introl Logic.eq_refl)) as [H1 H2].
  split.
  - exact (H1 0%nat carre_theta theta_premier_candidat).
  - exact (H2 2%nat _ wf_G_theta theta_resolu).
Defined.

Lemma reparation_par_score_witness :
  (forall e, In e [(1, 5); (4, 5)] <->
     exists a b, In (a, b) (edges G_theta) /\ e = sorted_pair (a, b) /\
                 ~ path (arbre G_theta carre_theta) a b) /\
  exists s s' tri,
    etat_iteration (solveur_propose valeur_theta) ponts_theta cycles_theta
      choisir_score G_theta 0 = Some s /\
    etat_iteration (solveur_propose valeur_theta) ponts_theta cycles_theta
      choisir_score G_theta 1 = Some s' /\
    Permutation tri [(1, 5); (4, 5)] /\
    Sorted (fun a b => score_arete (arbre G_theta carre_theta) a
                       <= score_arete (arbre G_theta carre_theta) b) tri /\
    (forall k,
       filter (fun e => score_arete (arbre G_theta carre_theta) e =? k) tri =
       filter (fun e => score_arete (arbre G_theta carre_theta) e =? k)
         [(1, 5); (4, 5)]) /\
    edges_forcees s' = edges_forcees s ++ firstn 1 tri.
Proof.
  assert (Hne : carre_theta <> []) by discriminate.
  assert (Hcand :
    map sorted_pair
      (filter (composantes_differentes
                 (connected_components (arbre G_theta carre_theta)))
         (edges G_theta)) <> [])
    by (rewrite theta_candidates; discriminate).
  destruct (reparation_par_score (solveur_propose valeur_theta) ponts_theta
              cycles_theta G_theta 0 carre_theta wf_G_theta
              theta_premier_candidat Hne theta_carre_non_connexe Hcand)
    as (H0 & s & s' & tri & H1 & H2 & H3 & H4 & H5 & H6).
  rewrite theta_candidates in H0, H3, H5, H6.
  split; [exact H0|].
  assert (Es : s = etat_initial G_theta).
  { change (etat_iteration (solveur_propose valeur_theta) ponts_theta
              cycles_theta choisir_score G_theta 0)
      with (Some (etat_initial G_theta)) in H1. congruence. }
  subst s. exists (etat_initial G_theta), s', tri.
  split; [reflexivity|]. split; [exact H2|]. split; [exact H3|].
  split; [exact H4|]. split; [exact H5 | exact H6].
Defined.

Lemma quota_decroissant_minore_witness :
  n_quota (etat_initial G_theta) = 1 /\
  4 * 1 * 1 <= 5 < 4 * (1 + 1) * (1 + 1) /\
  1 <= n_quota (etat_initial G_theta) /\
  n_quota {| edges_forcees := [(1, 5)]; n_quota := 1; iteration := 1 |}
    = Z.max 1 (n_quota (etat_initial G_theta) - 1) /\
  n_quota {| edges_forcees := [(1, 5)]; n_quota := 1; iteration := 1 |}
    <= n_quota (etat_initial G_theta).
Proof.
  destruct (quota_decroissant_minore (solveur_propose valeur_theta)
              ponts_theta cycles_theta choisir_score G_theta)
    as (H0 & Hr & H).
  destruct (H 0%nat (etat_initial G_theta) Logic.eq_refl) as [Hq Hs].
  destruct (Hs _ theta_apres_reparation) as [H1 H2].
  split; [exact H0|]. split; [exact Hr|]. split; [exact Hq|].
  split; [exact H1 | exact H2].
Defined.

(** With the random loop and the draw [tirage_fin] the repair forces the
    edge 4-5 instead. *)
Example theta_apres_reparation_hasard :
  etat_iteration (solveur_propose valeur_theta) ponts_theta cycles_theta
    (choisir_hasard tirage_fin) G_theta 1
  = Some {| edges_forcees := [(4, 5)]; n_quota := 1; iteration := 1 |}.
Proof. vm_compute. reflexivity. Qed.

Lemma aretes_forcees_croissantes_witness :
  ((exists nouvelles, [(1, 5)] = [] ++ nouvelles) /\
   incl (edges_forcees (etat_initial G_theta)) [(1, 5)]) /\
  ((exists nouvelles, [(4, 5)] = [] ++ nouvelles) /\
   incl (edges_forcees (etat_initial G_theta)) [(4, 5)]).
Proof.
  split.
  - exact (aretes_forcees_croissantes (solveur_propose valeur_theta)
             ponts_theta cycles_theta choisir_score G_theta 0
             (etat_initial G_theta)
             {| edges_forcees := [(1, 5)]; n_quota := 1; iteration := 1 |}
             Logic.eq_refl theta_apres_reparation).
  - exact (aretes_forcees_croissantes (solveur_propose valeur_theta)
             ponts_theta cycles_theta (choisir_hasard tirage_fin) G_theta 0
             (etat_initial G_theta)
             {| edges_forcees := [(4, 5)]; n_quota := 1; iteration := 1 |}
             Logic.eq_refl theta_apres_reparation_hasard).
Defined.

Example triangle_candidat :
  candidat_iteration (solveur_propose valeur_chemin) ponts_triangle
    cycles_triangle choisir_score G_triangle 0 [(1, 2); (2, 3); (3, 4)].
Proof. exists (etat_initial G_triangle). split; vm_compute; reflexivity. Qed.

Lemma ponts_dans_tout_candidat_witness :
  In (sorted_pair (3, 4)) [(1, 2); (2, 3); (3, 4)].
Proof.
  apply (ponts_dans_tout_candidat (solveur_propose valeur_chemin)
           ponts_triangle cycles_triangle choisir_score G_triangle 0
           [(1, 2); (2, 3); (3, 4)] (3, 4)
           (solveur_propose_fiable valeur_chemin)).
  - intros b [<-|[]]. vm_compute. tauto.
  - exact triangle_candidat.
  - now left.
Defined.

Example triangle_modele :
  modele cycles_triangle G_triangle
    (snd (analyser_structure ponts_triangle G_triangle)) [(3, 4)] []
  = Ok modele_triangle.
Proof. vm_compute. reflexivity. Qed.

Example un_modele :
  modele sans_cycle G_un (snd (analyser_structure ponts_theta G_un)) [] []
  = Ok modele_un.
Proof. vm_compute. reflexivity. Qed.

Lemma contraintes_de_degre_witness :
  direction_of modele_triangle = LpMinimize /\
  objective modele_triangle = lpSum [Y 3] /\
  In (le (lpSum [X (1, 3); X (2, 3); X (3, 4)])
         {| terms := [(1, Y 3)]; constant := 2 |})
     (constraints modele_triangle) /\
  In (le (lpSum [X (3, 4)]) (const 2)) (constraints modele_triangle).
Proof.
  destruct (contraintes_de_degre ponts_triangle cycles_triangle G_triangle
              [(3, 4)] [] modele_triangle triangle_modele) as (Hd & Ho & Hv).
  split; [exact Hd|]. split; [exact Ho|]. split.
  - assert (H3 : In 3 (nodes G_triangle)) by (vm_compute; tauto).
    assert (D3 : 2 < degree G_triangle 3) by (vm_compute; reflexivity).
    exact (proj1 (proj1 (Hv 3 H3) D3)).
  - assert (H4 : In 4 (nodes G_triangle)) by (vm_compute; tauto).
    assert (D4 : degree G_triangle 4 <= 2) by (vm_compute; discriminate).
    exact (proj1 (proj2 (Hv 4 H4) D4)).
Defined.

Lemma infaisable_retourne_None_witness :
  etat_iteration (solveur_propose valeur_nulle) ponts_triangle cycles_triangle
    choisir_score G_triangle 1 = None /\
  resoudre_mbvst (solveur_propose valeur_nulle) ponts_triangle cycles_triangle
    1 G_triangle = Some (Ok None).
Proof.
  assert (Hst : fst (solveur_propose valeur_nulle 1 modele_triangle) <> 1)
    by (vm_compute; discriminate).
  destruct (infaisable_retourne_None (solveur_propose valeur_nulle)
              ponts_triangle cycles_triangle choisir_score G_triangle 0
              (etat_initial G_triangle) modele_triangle
              Logic.eq_refl triangle_modele Hst) as [H1 H2].
  split; [exact H1|]. apply H2. constructor.
Defined.

Lemma arete_forcee_absente_ignoree_witness :
  modele cycles_triangle G_triangle
    (snd (analyser_structure ponts_triangle G_triangle)) [(3, 4)] [(1, 4)]
  = Ok modele_triangle /\
  ~ In (eq (single (X (1, 4))) (const 1)) (constraints modele_triangle).
Proof.
  assert (Habs : ~ In (sorted_pair (1, 4)) (all_edges G_triangle)).
  { intros H. apply mem_edge_In in H. discriminate H. }
  destruct (arete_forcee_absente_ignoree cycles_triangle G_triangle
              (snd (analyser_structure ponts_triangle G_triangle))
              [(3, 4)] [(1, 4)] (1, 4) Habs) as [H1 H2].
  assert (E : modele cycles_triangle G_triangle
                (snd (analyser_structure ponts_triangle G_triangle))
                (remove edge_eq_dec (1, 4) [(3, 4)])
                (remove edge_eq_dec (1, 4) [(1, 4)])
              = Ok modele_triangle) by (vm_compute; reflexivity).
  rewrite E in H1. split; [exact H1 | exact (H2 modele_triangle H1)].
Defined.

Example un_optimal :
  fst (solveur_propose valeur_nulle 1 modele_un) = 1.
Proof. vm_compute. reflexivity. Qed.

Example un_vide :
  filter (fun e => snd (solveur_propose valeur_nulle 1 modele_un) (X e) =? 1)
    (all_edges G_un) = [].
Proof. vm_compute. reflexivity. Qed.

Lemma optimal_vide_retourne_None_witness :
  resoudre_mbvst (solveur_propose valeur_nulle) ponts_theta sans_cycle 1 G_un
    = Some (Ok None) /\
  number_of_nodes G_un = 1.
Proof.
  destruct (optimal_vide_retourne_None (solveur_propose valeur_nulle)
              ponts_theta sans_cycle choisir_score G_un 0
              (etat_initial G_un) modele_un
              Logic.eq_refl un_modele un_optimal un_vide)
    as [H1 H2].
  split.
  - apply H1. constructor.
  - apply H2. apply solveur_propose_fiable.
Defined.

(* ===================================================================== *)
(** * Progress and termination of the repair loop *)
(* ===================================================================== *)

Lemma firstn_NoDup {A} (n : nat) (l : list A) : NoDup l -> NoDup (firstn n l).
Proof.
  intros H. rewrite <- (firstn_skipn n l) in H.
  now apply NoDup_app_remove_r in H.
Qed.

Lemma firstn_incl {A} (n : nat) (l : list A) : incl (firstn n l) l.
Proof.
  intros a Ha. rewrite <- (firstn_skipn n l). apply in_or_app. now left.
Qed.

(** Edges kept by a test stay distinct once sorted. *)
Lemma NoDup_aretes_gardees (garde : edge -> bool) (aretes : list edge) :
  NoDup (map sorted_pair aretes) ->
  NoDup (map sorted_pair (filter garde aretes)).
Proof.
  induction aretes as [|a l IH]; simpl; intros H; [constructor|].
  inversion H as [|? ? Ha Hl]; subst.
  destruct (garde a); simpl; [|auto]. constructor; [|auto].
  intros Hin. apply Ha. apply in_map_iff in Hin.
  destruct Hin as (b & E & Hb). apply filter_In in Hb.
  rewrite <- E. apply in_map. tauto.
Qed.

Lemma NoDup_app_disjoint {A} (l1 l2 : list A) (a : A) :
  NoDup (l1 ++ l2) -> In a l1 -> In a l2 -> False.
Proof.
  induction l1 as [|x l1 IH]; simpl; intros H H1 H2; [tauto|].
  inversion H as [|? ? Hx Hl]; subst. destruct H1 as [->|H1]; [|auto].
  apply Hx. apply in_or_app. now right.
Qed.

Lemma sorted_pair_idem (e : edge) : sorted_pair (sorted_pair e) = sorted_pair e.
Proof. unfold sorted_pair. simpl. f_equal; lia. Qed.

Lemma all_edges_sorted (G : Graph) (e : edge) :
  In e (all_edges G) -> sorted_pair e = e.
Proof.
  intros H. apply in_map_iff in H. destruct H as (f & <- & _).
  apply sorted_pair_idem.
Qed.

(** The scored draw keeps the contract of a draw. *)
Lemma choisir_score_valide : choix_valide choisir_score.
Proof.
  intros k T cands n Hnd Hn. unfold choisir_score, slice_to.
  destruct (Z.ltb_spec n 0) as [Hneg|_]; [lia|].
  pose proof (sort_by_perm (score_arete T) cands) as Hp.
  split; [|split].
  - intros a Ha. apply firstn_incl in Ha.
    eapply Permutation_in; eauto.
  - apply firstn_NoDup. eapply Permutation_NoDup; [|exact Hnd].
    now apply Permutation_sym.
  - rewrite length_firstn, (Permutation_length Hp). lia.
Qed.

(** ** Every edge of the adjacency is enumerated by [G.edges()] *)

Lemma In_entry (G : Graph) (a : node) :
  In a (nodes G) -> In (a, adj G a) G.
Proof.
  induction G as [|[k l] G IH]; simpl; intros H; [tauto|].
  destruct (Z.eqb_spec k a) as [->|Hne]; [now left|].
  right. apply IH. destruct H; [contradiction | assumption].
Qed.

Lemma edges_from_found (P S : Graph) (a b : node) (l seen : list node) :
  In b l -> ~ In b seen -> ~ In b (nodes P) ->
  In (a, b) (edges_from seen (P ++ (a, l) :: S)).
Proof.
  revert seen. induction P as [|[k nb] P IH]; simpl; intros seen Hb Hs Hp.
  - apply in_or_app. left. apply in_map. apply filter_In. split; [assumption|].
    apply negb_true_iff. now apply mem_node_false.
  - apply in_or_app. right. apply IH; auto.
    intros [->|H]; tauto.
Qed.

Lemma edges_complete (G : Graph) (a b : node) :
  wf G -> In b (adj G a) -> In (a, b) (edges G) \/ In (b, a) (edges G).
Proof.
  intros W Hb.
  assert (Ha : In a (nodes G)).
  { destruct (in_dec Z.eq_dec a (nodes G)) as [H|H]; [assumption|].
    rewrite (adj_not_node G a H) in Hb. destruct Hb. }
  pose proof (In_entry G a Ha) as He.
  set (la := adj G a) in *.
  destruct (in_split _ _ He) as (P & S & E).
  destruct (in_dec Z.eq_dec b (nodes P)) as [Hp|Hp].
  - right. apply in_map_iff in Hp. destruct Hp as ([b' lb] & Eb & Hp).
    simpl in Eb. subst b'.
    destruct (in_split _ _ Hp) as (P1 & P2 & EP).
    assert (Hlb : lb = adj G b).
    { symmetry. apply adj_entry; [apply (wf_nodes _ W)|].
      rewrite E, EP. apply in_or_app. left. apply in_or_app. right. now left. }
    assert (Hnd : NoDup (nodes G)) by apply (wf_nodes _ W).
    unfold edges. rewrite E, EP, <- app_assoc. simpl.
    apply edges_from_found.
    + rewrite Hlb. now apply (wf_sym _ W).
    + intros [].
    + intros Hin.
      assert (En : nodes G = nodes P1 ++ (b :: nodes P2 ++ a :: nodes S)).
      { rewrite E, EP. unfold nodes.
        repeat (rewrite map_app; simpl). now rewrite <- app_assoc. }
      rewrite En in Hnd. apply (NoDup_app_disjoint _ _ a Hnd Hin).
      right. apply in_or_app. right. now left.
  - left. unfold edges. rewrite E. apply edges_from_found; auto.
Qed.

Section Progres.

Variable solver : nat -> LpProblem -> Z * (var -> Z).
Variable nx_cycle_basis : Graph -> list (list node).
Variable choisir : nat -> Graph -> list edge -> Z -> list edge.
Variable G : Graph.
Variable ponts : list edge.
Variable partitions : Partitions.

Hypothesis W : wf G.
Hypothesis Hchoix : choix_valide choisir.

Local Notation "'un_tour'" :=
  (tour solver nx_cycle_basis choisir G ponts partitions).
Local Notation "'la_boucle'" :=
  (boucle solver nx_cycle_basis choisir G ponts partitions).
Local Notation "'apres'" :=
  (etat_apres solver nx_cycle_basis choisir G ponts partitions).
Local Notation "'candidats_de' sol" :=
  (map sorted_pair
     (filter (composantes_differentes (connected_components (arbre G sol)))
        (edges G))) (at level 10, sol at level 9).

Lemma candidats_NoDup (sol : list edge) : NoDup (candidats_de sol).
Proof. apply NoDup_aretes_gardees. apply (NoDup_all_edges G W). Qed.

Lemma candidats_incl (sol : list edge) : incl (candidats_de sol) (all_edges G).
Proof.
  intros e He. apply in_map_iff in He. destruct He as (f & <- & Hf).
  apply filter_In in Hf. apply in_map. tauto.
Qed.

(** A candidate is not an edge of the solution it repairs. *)
Lemma candidat_hors_solution (sol : list edge) (e : edge) :
  NoDup sol -> incl sol (all_edges G) ->
  In e (candidats_de sol) -> ~ In e sol.
Proof.
  intros Hnd Hincl He Hin.
  apply (candidates_spec G sol e W Hnd Hincl) in He.
  destruct He as (a & b & Hab & -> & Hp).
  destruct (arbre_spec G sol W Hnd Hincl) as (WT & _ & _ & A).
  apply Hp. destruct (sorted_pair_cases (a, b)) as [E|E]; rewrite E in Hin.
  - apply path_step with a; [constructor|]. apply A. now left.
  - simpl in Hin. apply path_step with a; [constructor|]. apply A. now right.
Qed.

(** When the graph is connected, a solution that is not connected leaves
    a candidate. *)
Lemma candidats_non_vides (sol : list edge) :
  connected G -> NoDup sol -> incl sol (all_edges G) ->
  is_connected (arbre G sol) = Ok false -> candidats_de sol <> [].
Proof.
  intros HG Hnd Hincl Hc Hvide.
  destruct (arbre_spec G sol W Hnd Hincl) as (WT & NT & _ & _).
  set (T := arbre G sol) in *.
  assert (Hedge : forall a b, In (a, b) (edges G) -> path T a b).
  { intros a b Hab. destruct (In_edges G a b W Hab) as [Ha Hb].
    apply (wf_closed _ W) in Hb. rewrite <- NT in Ha, Hb.
    destruct (in_dec Z.eq_dec b (plain_bfs T a)) as [Hin|Hin].
    - now apply (BfsComplete.plain_bfs_iff T a WT Ha).
    - exfalso.
      assert (Hcand : In (sorted_pair (a, b)) (candidats_de sol)).
      { apply (candidates_spec G sol _ W Hnd Hincl). exists a, b.
        repeat split; auto. intros Hp. apply Hin.
        now apply (BfsComplete.plain_bfs_iff T a WT Ha). }
      fold T in Hcand. rewrite Hvide in Hcand. destruct Hcand. }
  assert (Hadj : forall a b, In b (adj G a) -> path T a b).
  { intros a b Hb. destruct (edges_complete G a b W Hb) as [H|H]; [auto|].
    apply path_sym; auto. }
  assert (Hpath : forall u v, path G u v -> path T u v).
  { intros u v H. induction H as [|a b Ha IH Hb]; [constructor|].
    eapply path_trans; eauto. }
  assert (Hne : nodes T <> []).
  { unfold is_connected in Hc. destruct (nodes T); [discriminate|discriminate]. }
  assert (HT : connected T).
  { intros u v Hu Hv. apply Hpath. apply HG; now rewrite <- NT. }
  rewrite (BfsComplete.is_connected_complete T WT Hne HT) in Hc. discriminate.
Qed.

Hypothesis fiable : solveur_fiable solver.

Lemma tour_progres (s s' : etat) :
  un_tour s = Ok (Suite s') -> forcees_saines G s -> 1 <= n_quota s ->
  exists sol,
    resoudre_ilp_iteration solver nx_cycle_basis (S (iteration s)) G partitions
      ponts (edges_forcees s) = Ok (Some sol) /\
    is_connected (arbre G sol) = Ok false /\
    forcees_saines G s' /\
    (candidats_de sol = [] -> edges_forcees s' = edges_forcees s) /\
    (candidats_de sol <> [] ->
       (length (edges_forcees s) < length (edges_forcees s'))%nat).
Proof.
  intros Ht [Hnd Hincl] Hq.
  destruct (tour_Suite _ _ _ _ _ _ _ _ Ht)
    as (sol & cands & Hsol & Hne & Hc & Hcands & Ef & _).
  apply candidats_Ok in Hcands. subst cands.
  pose proof (sol_NoDup _ _ _ _ _ _ _ _ W Hsol) as Hsnd.
  pose proof (sol_incl _ _ _ _ _ _ _ _ Hsol) as Hsincl.
  exists sol. split; [assumption|]. split; [assumption|].
  destruct (candidats_de sol) as [|c cs] eqn:Ec.
  - split; [split; now rewrite Ef|]. split; [congruence|]. congruence.
  - rewrite <- Ec in *.
    set (k := Z.min (Z.of_nat (length (candidats_de sol))) (n_quota s)) in *.
    assert (Hk : 1 <= k <= Z.of_nat (length (candidats_de sol))).
    { unfold k. rewrite Ec. simpl length. lia. }
    destruct (Hchoix (S (iteration s)) (arbre G sol) (candidats_de sol) k
                (candidats_NoDup sol)) as (Hi & Hn & Hl); [lia|].
    split; [split|split].
    + rewrite Ef. apply NoDup_app; auto.
      intros a Ha Hnew. apply Hi in Hnew.
      apply (candidat_hors_solution sol a Hsnd Hsincl Hnew).
      rewrite <- (all_edges_sorted G a (Hincl a Ha)).
      eapply sol_forcee; eauto.
      * apply in_or_app. now right.
      * now rewrite (all_edges_sorted G a (Hincl a Ha)); auto.
    + rewrite Ef. apply incl_app; [assumption|].
      eapply incl_tran; [exact Hi | apply candidats_incl].
    + congruence.
    + intros _. rewrite Ef, length_app, Hl. lia.
Qed.

Lemma etat_apres_saines (i : nat) (s0 s : etat) :
  forcees_saines G s0 -> 1 <= n_quota s0 -> apres i s0 = Some s ->
  forcees_saines G s.
Proof.
  intros H0 Hq. revert s. induction i as [|i IH]; intros s Hs.
  - simpl in Hs. now injection Hs as <-.
  - rewrite etat_apres_S in Hs. destruct (apres i s0) as [s1|] eqn:E1;
      [|discriminate].
    destruct (un_tour s1) as [[r|s2]|e] eqn:Et; try discriminate.
    injection Hs as <-.
    pose proof (quota_etat_apres _ _ _ _ _ _ _ _ _ E1 Hq) as Hq1.
    destruct (tour_progres s1 s2 Et (IH s1 Logic.eq_refl)) as (_ & _ & _ & H & _);
      [lia | assumption].
Qed.

Lemma etat_apres_longueur (i : nat) (s0 s : etat) :
  connected G -> forcees_saines G s0 -> 1 <= n_quota s0 ->
  apres i s0 = Some s ->
  (length (edges_forcees s0) + i <= length (edges_forcees s))%nat.
Proof.
  intros HG H0 Hq. revert s. induction i as [|i IH]; intros s Hs.
  - simpl in Hs. injection Hs as <-. lia.
  - rewrite etat_apres_S in Hs. destruct (apres i s0) as [s1|] eqn:E1;
      [|discriminate].
    destruct (un_tour s1) as [[r|s2]|e] eqn:Et; try discriminate.
    injection Hs as <-. specialize (IH s1 Logic.eq_refl).
    pose proof (quota_etat_apres _ _ _ _ _ _ _ _ _ E1 Hq) as Hq1.
    pose proof (etat_apres_saines i s0 s1 H0 Hq E1) as H1.
    destruct (tour_progres s1 s2 Et H1) as (sol & Hsol & Hc & _ & _ & Hlt);
      [lia|].
    assert (Hne : candidats_de sol <> []).
    { apply candidats_non_vides; auto.
      - eapply sol_NoDup; eauto.
      - eapply sol_incl; eauto. }
    specialize (Hlt Hne). lia.
Qed.

Lemma boucle_None (fuel : nat) (s0 : etat) :
  la_boucle fuel s0 = None -> exists s, apres fuel s0 = Some s.
Proof.
  revert s0. induction fuel as [|fuel IH]; intros s0 H.
  - exists s0. reflexivity.
  - simpl in H. destruct (un_tour s0) as [[r|s1]|e] eqn:Et; try discriminate.
    destruct (IH s1 H) as (s & Hs). exists s.
    eapply etat_apres_decale; eauto.
Qed.

Lemma boucle_mono (fuel fuel' : nat) (s0 : etat)
    (r : result (option Graph)) :
  la_boucle fuel s0 = Some r -> (fuel <= fuel')%nat ->
  la_boucle fuel' s0 = Some r.
Proof.
  revert fuel' s0. induction fuel as [|fuel IH]; intros fuel' s0 H Hle;
    [discriminate|].
  destruct fuel' as [|fuel']; [lia|]. simpl in *.
  destruct (un_tour s0) as [[r'|s1]|e]; auto. apply IH; [assumption | lia].
Qed.

(** On a connected graph the loop ends within as many turns as the graph
    has edges not yet forced, plus one. *)
Lemma boucle_termine (s0 : etat) :
  connected G -> forcees_saines G s0 -> 1 <= n_quota s0 ->
  exists r, forall fuel,
    (length (edges G) - length (edges_forcees s0) < fuel)%nat ->
    la_boucle fuel s0 = Some r.
Proof.
  intros HG H0 Hq.
  set (m := (length (edges G) - length (edges_forcees s0))%nat).
  destruct (la_boucle (S m) s0) as [r|] eqn:E.
  - exists r. intros fuel Hf. eapply boucle_mono; eauto.
  - exfalso. destruct (boucle_None _ _ E) as (s & Hs).
    pose proof (etat_apres_longueur _ _ _ HG H0 Hq Hs) as Hlen.
    destruct (etat_apres_saines _ _ _ H0 Hq Hs) as [Hnd Hincl].
    pose proof (NoDup_incl_length Hnd Hincl) as Hb.
    unfold all_edges in Hb. rewrite length_map in Hb. unfold m in *. lia.
Qed.

End Progres.

Section Terminaison.

Variable solver : nat -> LpProblem -> Z * (var -> Z).
Variable nx_bridges : Graph -> list edge.
Variable nx_cycle_basis : Graph -> list (list node).

Lemma etat_initial_sain (G : Graph) : forcees_saines G (etat_initial G).
Proof. split; [constructor | intros e []]. Qed.

(** X1.  Scored loop, connected graph, solver keeping its contract: the
    loop ends, with a tree, [None] or an exception, within one turn more
    than the graph has edges. *)
Theorem resoudre_mbvst_termine (G : Graph) :
  wf G -> connected G -> solveur_fiable solver ->
  exists r, forall fuel,
    (length (edges G) < fuel)%nat ->
    resoudre_mbvst solver nx_bridges nx_cycle_basis fuel G = Some r.
Proof.
  intros W HG Hf.
  destruct (boucle_termine solver nx_cycle_basis choisir_score G
              (fst (analyser_structure nx_bridges G))
              (snd (analyser_structure nx_bridges G))
              W choisir_score_valide Hf (etat_initial G) HG
              (etat_initial_sain G) (quota_initial_pos G)) as (r & Hr).
  exists r. intros fuel Hfuel. apply Hr. simpl. lia.
Qed.

(** X2.  The same for the random loop, when [random.sample] returns as
    many distinct candidates as it is asked. *)
Theorem resoudre_mbvst_hasard_termine
    (random_sample : nat -> list edge -> Z -> list edge) (G : Graph) :
  wf G -> connected G -> solveur_fiable solver ->
  choix_valide (choisir_hasard random_sample) ->
  exists r, forall fuel,
    (length (edges G) < fuel)%nat ->
    resoudre_mbvst_hasard solver nx_bridges nx_cycle_basis random_sample fuel G
      = Some r.
Proof.
  intros W HG Hf Hrs.
  destruct (boucle_termine solver nx_cycle_basis (choisir_hasard random_sample)
              G (fst (analyser_structure nx_bridges G))
              (snd (analyser_structure nx_bridges G))
              W Hrs Hf (etat_initial G) HG
              (etat_initial_sain G) (quota_initial_pos G)) as (r & Hr).
  exists r. intros fuel Hfuel. apply Hr. simpl. lia.
Qed.

(** X3.  Scored loop, solver keeping its contract: at every turn the
    forced edges are distinct edges of the graph, all of them are in the
    candidate of the turn, and on a connected graph each turn gone
    through has added one at least. *)
Theorem aretes_forcees_saines (G : Graph) (i : nat) (s : etat) :
  wf G -> solveur_fiable solver ->
  etat_iteration solver nx_bridges nx_cycle_basis choisir_score G i = Some s ->
  NoDup (edges_forcees s) /\
  incl (edges_forcees s) (all_edges G) /\
  (forall sol,
     resoudre_ilp_iteration solver nx_cycle_basis (S (iteration s)) G
       (snd (analyser_structure nx_bridges G))
       (fst (analyser_structure nx_bridges G)) (edges_forcees s)
     = Ok (Some sol) ->
     incl (edges_forcees s) sol) /\
  (connected G -> (i <= length (edges_forcees s))%nat).
Proof.
  intros W Hf Hs. unfold etat_iteration in Hs.
  destruct (etat_apres_saines solver nx_cycle_basis choisir_score G _ _ W
              choisir_score_valide Hf i _ s (etat_initial_sain G)
              (quota_initial_pos G) Hs) as [Hnd Hincl].
  split; [assumption|]. split; [assumption|]. split.
  - intros sol Hsol e He.
    rewrite <- (all_edges_sorted G e (Hincl e He)).
    eapply sol_forcee; eauto.
    + apply in_or_app. now right.
    + now rewrite (all_edges_sorted G e (Hincl e He)); auto.
  - intros HG.
    pose proof (etat_apres_longueur solver nx_cycle_basis choisir_score G _ _ W
                  choisir_score_valide Hf i _ s HG (etat_initial_sain G)
                  (quota_initial_pos G) Hs) as H.
    simpl in H. exact H.
Qed.

End Terminaison.

(* ===================================================================== *)
(** * When the loop does not end, and when it raises *)
(* ===================================================================== *)

Section Blocage.

Variable solver : nat -> LpProblem -> Z * (var -> Z).
Variable nx_cycle_basis : Graph -> list (list node).
Variable choisir : nat -> Graph -> list edge -> Z -> list edge.
Variable G : Graph.
Variable ponts : list edge.
Variable partitions : Partitions.

Local Notation "'un_tour'" :=
  (tour solver nx_cycle_basis choisir G ponts partitions).
Local Notation "'la_boucle'" :=
  (boucle solver nx_cycle_basis choisir G ponts partitions).
Local Notation "'apres'" :=
  (etat_apres solver nx_cycle_basis choisir G ponts partitions).
Local Notation "'candidats_de' sol" :=
  (map sorted_pair
     (filter (composantes_differentes (connected_components (arbre G sol)))
        (edges G))) (at level 10, sol at level 9).

Lemma etat_apres_prefixe (i j : nat) (s0 s : etat) :
  apres i s0 = Some s -> (j <= i)%nat -> exists s', apres j s0 = Some s'.
Proof.
  revert s. induction i as [|i IH]; intros s Hs Hj.
  - assert (j = 0%nat) by lia. subst. eauto.
  - destruct (Nat.eq_dec j (S i)) as [->|Hne]; [eauto|].
    rewrite etat_apres_S in Hs.
    destruct (apres i s0) as [s1|] eqn:E1; [|discriminate].
    apply (IH s1 Logic.eq_refl). lia.
Qed.

Lemma boucle_court (i fuel : nat) (s0 s : etat) :
  apres i s0 = Some s -> (fuel <= i)%nat -> la_boucle fuel s0 = None.
Proof.
  intros Hs Hf. destruct (etat_apres_prefixe _ _ _ _ Hs Hf) as (s' & Hs').
  rewrite <- (Nat.add_0_r fuel).
  now rewrite (boucle_etat_apres _ _ _ _ _ _ _ _ _ 0%nat Hs').
Qed.

Hypothesis W : wf G.
Hypothesis sans_memoire : solveur_sans_memoire solver.

Lemma resoudre_ilp_iteration_sans_memoire (k k' : nat) (F : list edge) :
  resoudre_ilp_iteration solver nx_cycle_basis k G partitions ponts F =
  resoudre_ilp_iteration solver nx_cycle_basis k' G partitions ponts F.
Proof.
  unfold resoudre_ilp_iteration.
  destruct (modele nx_cycle_basis G partitions ponts F) as [P|e];
    [|reflexivity].
  simpl. now rewrite (sans_memoire k k' P).
Qed.

(** A turn that finds no candidate leaves the loop where it was. *)
Lemma boucle_bloquee (sol : list edge) (fuel : nat) (s : etat) :
  resoudre_ilp_iteration solver nx_cycle_basis (S (iteration s)) G partitions
    ponts (edges_forcees s) = Ok (Some sol) ->
  sol <> [] ->
  is_connected (arbre G sol) = Ok false ->
  candidats_de sol = [] ->
  la_boucle fuel s = None.
Proof.
  intros Hsol Hne Hc Hvide. revert s Hsol.
  induction fuel as [|fuel IH]; intros s Hsol; [reflexivity|].
  simpl.
  rewrite (tour_reparation solver nx_cycle_basis choisir G ponts partitions
             s sol W Hsol Hne Hc).
  rewrite Hvide. apply IH. simpl.
  rewrite (resoudre_ilp_iteration_sans_memoire _ (S (iteration s))).
  exact Hsol.
Qed.

End Blocage.

Section Exceptions.

Variable solver : nat -> LpProblem -> Z * (var -> Z).
Variable nx_cycle_basis : Graph -> list (list node).
Variable choisir : nat -> Graph -> list edge -> Z -> list edge.
Variable G : Graph.
Variable ponts : list edge.
Variable partitions : Partitions.

Lemma mapM_total {A B} (f : A -> result B) (l : list A) :
  (forall a, In a l -> exists b, f a = Ok b) -> exists bs, mapM f l = Ok bs.
Proof.
  induction l as [|a l IH]; simpl; intros H; [eauto|].
  destruct (H a (or_introl Logic.eq_refl)) as (b & ->).
  destruct IH as (bs & ->); [auto|]. simpl. eauto.
Qed.

Lemma mapM_KeyError {A B} (f : A -> result B) (l : list A) (a : A) :
  (forall c e, f c = Raise e -> e = KeyError) ->
  In a l -> (exists e, f a = Raise e) -> mapM f l = Raise KeyError.
Proof.
  intros Hk. induction l as [|c l IH]; simpl; intros Ha Hf; [tauto|].
  destruct (f c) as [b|e] eqn:Ec.
  - destruct Ha as [->|Ha]; [destruct Hf; congruence|].
    simpl. now rewrite (IH Ha Hf).
  - simpl. now rewrite (Hk c e Ec).
Qed.

Lemma x_KeyError (e : edge) (err : exn) :
  x G e = Raise err -> err = KeyError /\ ~ In e (all_edges G).
Proof.
  unfold x. destruct (mem_edge e (all_edges G)) eqn:E; [discriminate|].
  intros [= <-]. split; [reflexivity|]. intros H. apply mem_edge_In in H.
  congruence.
Qed.

Lemma contrainte_cycle_KeyError (cycle : list node) (err : exn) :
  contrainte_cycle G cycle = Raise err -> err = KeyError.
Proof.
  unfold contrainte_cycle.
  destruct (mapM (x G) (aretes_du_cycle cycle)) as [xs|e] eqn:E;
    [discriminate|].
  simpl. intros [= <-]. clear - E.
  induction (aretes_du_cycle cycle) as [|a l IH]; simpl in E; [discriminate|].
  destruct (x G a) as [v|e'] eqn:Ea.
  - simpl in E. destruct (mapM (x G) l); [discriminate|].
    simpl in E. injection E as <-. now apply IH.
  - simpl in E. injection E as <-. now apply (x_KeyError a e').
Qed.

Lemma modele_total :
  base_dans_graphe nx_cycle_basis G ->
  forall F, exists P, modele nx_cycle_basis G partitions ponts F = Ok P.
Proof.
  intros Hb F. unfold modele.
  destruct (mapM_total (contrainte_cycle G) (nx_cycle_basis G)) as (c4 & ->);
    [|simpl; eauto].
  intros cycle Hc. unfold contrainte_cycle.
  destruct (mapM_total (x G) (aretes_du_cycle cycle)) as (xs & ->);
    [|simpl; eauto].
  intros e He. unfold x.
  assert (H : mem_edge e (all_edges G) = true)
    by (apply mem_edge_In; eauto).
  rewrite H. eauto.
Qed.

Lemma modele_KeyError (cycle : list node) (e : edge) (F : list edge) :
  In cycle (nx_cycle_basis G) -> In e (aretes_du_cycle cycle) ->
  ~ In e (all_edges G) ->
  modele nx_cycle_basis G partitions ponts F = Raise KeyError.
Proof.
  intros Hc He Habs. unfold modele.
  rewrite (mapM_KeyError (contrainte_cycle G) (nx_cycle_basis G) cycle);
    [reflexivity | apply contrainte_cycle_KeyError | assumption |].
  unfold contrainte_cycle.
  rewrite (mapM_KeyError (x G) (aretes_du_cycle cycle) e);
    [simpl; eauto | | assumption |].
  - intros c err H. now apply (x_KeyError c err).
  - unfold x. destruct (mem_edge e (all_edges G)) eqn:E; [|eauto].
    apply mem_edge_In in E. contradiction.
Qed.

Lemma tour_succes (s : etat) (sol : list edge) :
  resoudre_ilp_iteration solver nx_cycle_basis (S (iteration s)) G partitions
    ponts (edges_forcees s) = Ok (Some sol) ->
  sol <> [] -> is_connected (arbre G sol) = Ok true ->
  tour solver nx_cycle_basis choisir G ponts partitions s
    = Ok (Retour (Some (arbre G sol))).
Proof.
  intros Hsol Hne Hc. unfold tour. rewrite Hsol. cbn [bind].
  destruct sol as [|a sol']; [congruence|]. rewrite Hc. reflexivity.
Qed.

(** With a basis along the edges of the graph, no turn raises. *)
Lemma tour_sans_exception (s : etat) :
  wf G -> base_dans_graphe nx_cycle_basis G ->
  exists p, tour solver nx_cycle_basis choisir G ponts partitions s = Ok p.
Proof.
  intros W Hb.
  destruct (modele_total Hb (edges_forcees s)) as (P & HP).
  destruct (resoudre_ilp_iteration solver nx_cycle_basis (S (iteration s)) G
              partitions ponts (edges_forcees s)) as [[sol|]|e] eqn:Hsol.
  - destruct sol as [|a sol'] eqn:Es.
    + exists (Retour None). apply tour_Retour_None. now right.
    + rewrite <- Es in *.
      assert (Hne : sol <> []) by (subst; discriminate).
      pose proof (sol_NoDup _ _ _ _ _ _ _ _ W Hsol) as Hnd.
      pose proof (sol_incl _ _ _ _ _ _ _ _ Hsol) as Hincl.
      destruct (arbre_spec G sol W Hnd Hincl) as (_ & NT & _ & _).
      assert (Ha : In a (all_edges G)) by (apply Hincl; subst; now left).
      destruct (In_all_edges G a W Ha) as (Hn & _).
      destruct (is_connected (arbre G sol)) as [[|]|e] eqn:Hc.
      * exists (Retour (Some (arbre G sol))). now apply tour_succes.
      * eexists. apply tour_reparation; eauto.
      * exfalso. unfold is_connected in Hc. rewrite NT in Hc.
        destruct (nodes G); [destruct Hn | discriminate].
  - exists (Retour None). apply tour_Retour_None. now left.
  - exfalso. unfold resoudre_ilp_iteration in Hsol. rewrite HP in Hsol.
    simpl in Hsol. destruct (fst (solver (S (iteration s)) P) =? 1);
      discriminate.
Qed.

Lemma boucle_sans_exception (fuel : nat) (s : etat) (e : exn) :
  wf G -> base_dans_graphe nx_cycle_basis G ->
  boucle solver nx_cycle_basis choisir G ponts partitions fuel s
    <> Some (Raise e).
Proof.
  intros W Hb. revert s. induction fuel as [|fuel IH]; intros s; simpl;
    [discriminate|].
  destruct (tour_sans_exception s W Hb) as ([r|s'] & ->);
    [discriminate | apply IH].
Qed.

End Exceptions.

Section LoopExtras.

Variable solver : nat -> LpProblem -> Z * (var -> Z).
Variable nx_bridges : Graph -> list edge.
Variable nx_cycle_basis : Graph -> list (list node).

(** X4.  With a solver whose answer depends on the model only, a turn
    whose candidate is not connected and leaves no edge of the graph
    between two components sends the loop round for ever: for every bound
    on the turns the loop is still running. *)
Theorem boucle_sans_fin
    (choisir : nat -> Graph -> list edge -> Z -> list edge)
    (G : Graph) (i : nat) (sol : list edge) :
  wf G -> solveur_sans_memoire solver ->
  candidat_iteration solver nx_bridges nx_cycle_basis choisir G i sol ->
  sol <> [] ->
  is_connected (arbre G sol) = Ok false ->
  map sorted_pair
    (filter (composantes_differentes (connected_components (arbre G sol)))
       (edges G)) = [] ->
  forall fuel,
    resoudre_mbvst_avec solver nx_bridges nx_cycle_basis choisir fuel G = None.
Proof.
  intros W Hm (s & Hs & Hsol) Hne Hc Hvide fuel.
  unfold resoudre_mbvst_avec. unfold etat_iteration in Hs.
  destruct (Nat.le_gt_cases fuel i) as [Hle|Hgt].
  - eapply boucle_court; eauto.
  - replace fuel with (i + (fuel - i))%nat by lia.
    rewrite (boucle_etat_apres _ _ _ _ _ _ _ _ _ _ Hs).
    eapply boucle_bloquee; eauto.
Qed.

(** X5.  On a well-formed graph, with a cycle basis that runs along edges
    of the graph, the loop raises no exception: no [KeyError], no
    [StopIteration] in the search of the components, no
    [NetworkXPointlessConcept]. *)
Theorem resoudre_mbvst_sans_exception
    (choisir : nat -> Graph -> list edge -> Z -> list edge)
    (G : Graph) (fuel : nat) (e : exn) :
  wf G -> base_dans_graphe nx_cycle_basis G ->
  resoudre_mbvst_avec solver nx_bridges nx_cycle_basis choisir fuel G
    <> Some (Raise e).
Proof.
  intros W Hb. unfold resoudre_mbvst_avec. now apply boucle_sans_exception.
Qed.

(** X6.  When a cycle of the basis names a pair that is not an edge of
    the graph, the first turn raises [KeyError] while it builds the
    model, whatever the solver. *)
Theorem cycle_hors_graphe_KeyError
    (choisir : nat -> Graph -> list edge -> Z -> list edge)
    (G : Graph) (cycle : list node) (e : edge) (fuel : nat) :
  In cycle (nx_cycle_basis G) -> In e (aretes_du_cycle cycle) ->
  ~ In e (all_edges G) -> (0 < fuel)%nat ->
  resoudre_mbvst_avec solver nx_bridges nx_cycle_basis choisir fuel G
    = Some (Raise KeyError).
Proof.
  intros Hc He Habs Hf. unfold resoudre_mbvst_avec.
  destruct fuel as [|fuel]; [lia|]. simpl.
  unfold tour, resoudre_ilp_iteration.
  rewrite (modele_KeyError nx_cycle_basis G _ _ cycle e _ Hc He Habs).
  reflexivity.
Qed.

End LoopExtras.

(* ===================================================================== *)
(** * Degrees in the tree of a solution *)
(* ===================================================================== *)






Lemma filter_length_le {A} (p q : A -> bool) (l : list A) :
  (forall a, In a l -> p a = true -> q a = true) ->
  (length (filter p l) <= length (filter q l))%nat.
Proof.
  induction l as [|a l IH]; simpl; intros H; [lia|].
  assert (IH' := IH (fun b Hb => H b (or_intror Hb))).
  destruct (p a) eqn:Ep.
  - rewrite (H a (or_introl Logic.eq_refl) Ep). simpl. lia.
  - destruct (q a); simpl; lia.
Qed.

Section Branchements.

Variable G : Graph.
Hypothesis W : wf G.
Hypothesis sans_boucle : forall v, ~ In v (adj G v).



End Branchements.



Section ObjectifEtBranchements.

Variable solver : nat -> LpProblem -> Z * (var -> Z).
Variable nx_bridges : Graph -> list edge.
Variable nx_cycle_basis : Graph -> list (list node).

Local Notation "'ponts_de' G" := (fst (analyser_structure nx_bridges G))
  (at level 10, G at level 9).
Local Notation "'partitions_de' G" := (snd (analyser_structure nx_bridges G))
  (at level 10, G at level 9).



End ObjectifEtBranchements.

(* ===================================================================== *)
(** * The further properties, run on the scenarios *)
(* ===================================================================== *)


Lemma wf_G_ile : wf G_ile.
Proof. apply wf_add_edges_from, wf_add_nodes_from, wf_empty. Qed.

Lemma connexe_G_theta : connected G_theta.
Proof. apply is_connected_sound; [apply wf_G_theta | vm_compute; reflexivity]. Qed.

Lemma tirage_fin_valide : choix_valide (choisir_hasard tirage_fin).
Proof.
  intros k T cands n Hnd Hn. unfold choisir_hasard, tirage_fin.
  split; [|split].
  - intros a Ha. apply firstn_incl in Ha. now apply in_rev.
  - apply firstn_NoDup. now apply NoDup_rev.
  - rewrite length_firstn, length_rev. lia.
Qed.

Lemma base_theta : base_dans_graphe cycles_theta G_theta.
Proof.
  intros cycle e Hc He. apply (proj1 (mem_edge_In e (all_edges G_theta))).
  destruct Hc as [<-|[<-|[<-|[]]]]; vm_compute in He;
    repeat (destruct He as [<-|He]; [vm_compute; reflexivity|]);
    destruct He.
Qed.

Lemma solveur_carre_sans_memoire :
  solveur_sans_memoire (solveur_propose valeur_carre).
Proof. intros k k' P. reflexivity. Qed.

Example ile_candidat :
  candidat_iteration (solveur_propose valeur_carre) ponts_theta cycles_ile
    choisir_score G_ile 0 carre_theta.
Proof. exists (etat_initial G_ile). split; vm_compute; reflexivity. Qed.

Example ile_non_connexe : is_connected (arbre G_ile carre_theta) = Ok false.
Proof. vm_compute. reflexivity. Qed.

Example ile_sans_candidat :
  map sorted_pair
    (filter (composantes_differentes
               (connected_components (arbre G_ile carre_theta)))
       (edges G_ile)) = [].
Proof. vm_compute. reflexivity. Qed.

Lemma resoudre_mbvst_termine_witness :
  exists r, forall fuel,
    (length (edges G_theta) < fuel)%nat ->
    resoudre_mbvst (solveur_propose valeur_theta) ponts_theta cycles_theta
      fuel G_theta = Some r.
Proof.
  exact (resoudre_mbvst_termine (solveur_propose valeur_theta) ponts_theta
           cycles_theta G_theta wf_G_theta connexe_G_theta
           (solveur_propose_fiable valeur_theta)).
Defined.

Lemma resoudre_mbvst_hasard_termine_witness :
  exists r, forall fuel,
    (length (edges G_theta) < fuel)%nat ->
    resoudre_mbvst_hasard (solveur_propose valeur_theta) ponts_theta
      cycles_theta tirage_fin fuel G_theta = Some r.
Proof.
  exact (resoudre_mbvst_hasard_termine (solveur_propose valeur_theta)
           ponts_theta cycles_theta tirage_fin G_theta wf_G_theta
           connexe_G_theta (solveur_propose_fiable valeur_theta)
           tirage_fin_valide).
Defined.

Lemma aretes_forcees_saines_witness :
  NoDup [(1, 5)] /\
  incl [(1, 5)] (all_edges G_theta) /\
  (forall sol,
     resoudre_ilp_iteration (solveur_propose valeur_theta) cycles_theta 2
       G_theta (snd (analyser_structure ponts_theta G_theta))
       (fst (analyser_structure ponts_theta G_theta)) [(1, 5)]
     = Ok (Some sol) ->
     incl [(1, 5)] sol) /\
  (connected G_theta -> (1 <= 1)%nat).
Proof.
  exact (aretes_forcees_saines (solveur_propose valeur_theta) ponts_theta
           cycles_theta G_theta 1
           {| edges_forcees := [(1, 5)]; n_quota := 1; iteration := 1 |}
           wf_G_theta (solveur_propose_fiable valeur_theta)
           theta_apres_reparation).
Defined.

Lemma boucle_sans_fin_witness :
  resoudre_mbvst (solveur_propose valeur_carre) ponts_theta cycles_ile
    1000 G_ile = None.
Proof.
  assert (Hne : carre_theta <> []) by discriminate.
  exact (boucle_sans_fin (solveur_propose valeur_carre) ponts_theta cycles_ile
           choisir_score G_ile 0 carre_theta wf_G_ile
           solveur_carre_sans_memoire ile_candidat Hne ile_non_connexe
           ile_sans_candidat 1000%nat).
Defined.

Lemma resoudre_mbvst_sans_exception_witness :
  resoudre_mbvst (solveur_propose valeur_theta) ponts_theta cycles_theta
    2 G_theta <> Some (Raise KeyError).
Proof.
  exact (resoudre_mbvst_sans_exception (solveur_propose valeur_theta)
           ponts_theta cycles_theta choisir_score G_theta 2 KeyError
           wf_G_theta base_theta).
Defined.

Lemma cycle_hors_graphe_KeyError_witness :
  resoudre_mbvst (solveur_propose valeur_chemin) ponts_triangle cycles_faux
    1 G_triangle = Some (Raise KeyError).
Proof.
  assert (Hc : In [1; 3; 4] (cycles_faux G_triangle)) by (right; now left).
  assert (He : In (1, 4) (aretes_du_cycle [1; 3; 4]))
    by (vm_compute; tauto).
  assert (Habs : ~ In (1, 4) (all_edges G_triangle)).
  { intros H. apply mem_edge_In in H. discriminate H. }
  exact (cycle_hors_graphe_KeyError (solveur_propose valeur_chemin)
           ponts_triangle cycles_faux choisir_score G_triangle [1; 3; 4]
           (1, 4) 1 Hc He Habs (Nat.lt_0_succ 0)).
Defined.



(* ===================================================================== *)
(** * Facts about graph files *)
(* ===================================================================== *)

Module FichiersFacts.

Import Fichiers.

Lemma In_nodes_add_edge (G : Graph) (u v x : node) :
  In x (nodes (add_edge G u v)) <-> In x (nodes G) \/ x = u \/ x = v.
Proof.
  unfold add_edge. rewrite !nodes_add_nbr, !In_nodes_add_node. tauto.
Qed.

Lemma In_adj_add_edge_any (G : Graph) (u v a w : node) :
  In w (adj (add_edge G u v) a) <->
  In w (adj G a) \/ (a = u /\ w = v) \/ (a = v /\ w = u).
Proof.
  unfold add_edge.
  rewrite In_adj_add_nbr
    by (rewrite nodes_add_nbr, !In_nodes_add_node; tauto).
  rewrite In_adj_add_nbr by (rewrite !In_nodes_add_node; tauto).
  rewrite !adj_add_node. tauto.
Qed.

(** The nodes already there keep their place; new end points go last. *)
Lemma nodes_add_edge_app (G : Graph) (u v : node) :
  exists extra,
    nodes (add_edge G u v) = nodes G ++ extra /\
    forall x, In x extra <-> ~ In x (nodes G) /\ (x = u \/ x = v).
Proof.
  unfold add_edge. rewrite !nodes_add_nbr, !nodes_add_node.
  destruct (mem_node u (nodes G)) eqn:Eu.
  - destruct (mem_node v (nodes G)) eqn:Ev.
    + exists []. rewrite app_nil_r. split; [reflexivity|].
      apply mem_node_In in Eu, Ev. intros x. simpl.
      split; [tauto|]. intros [Hx [->| ->]]; auto.
    + exists [v]. split; [reflexivity|].
      apply mem_node_In in Eu. apply mem_node_false in Ev. intros x. simpl.
      split.
      * intros [<-|[]]. tauto.
      * intros [Hx [->| ->]]; tauto.
  - apply mem_node_false in Eu.
    assert (E : mem_node v (nodes G ++ [u]) = mem_node v (nodes G) || (v =? u)).
    { unfold mem_node. rewrite existsb_app. simpl. now rewrite orb_false_r. }
    rewrite E. destruct (mem_node v (nodes G)) eqn:Ev; simpl.
    + exists [u]. split; [reflexivity|]. apply mem_node_In in Ev.
      intros x. simpl. split.
      * intros [<-|[]]. tauto.
      * intros [Hx [->| ->]]; tauto.
    + apply mem_node_false in Ev. destruct (Z.eqb_spec v u) as [->|Hne].
      * exists [u]. split; [reflexivity|]. intros x. simpl. split.
        -- intros [<-|[]]. tauto.
        -- intros [Hx [->| ->]]; tauto.
      * exists [u; v]. rewrite <- app_assoc. split; [reflexivity|].
        intros x. simpl. split.
        -- intros [<-|[<-|[]]]; tauto.
        -- intros [Hx [->| ->]]; tauto.
Qed.

Lemma In_range1 (n x : Z) : In x (range1 n) <-> 1 <= x <= n.
Proof.
  unfold range1. rewrite in_map_iff. split.
  - intros (k & <- & Hk). apply in_seq in Hk. lia.
  - intros H. exists (Z.to_nat x). split; [lia|]. apply in_seq. lia.
Qed.

Lemma NoDup_range1 (n : Z) : NoDup (range1 n).
Proof.
  unfold range1. apply NoDup_map_inj; [|apply seq_NoDup].
  intros a b _ _ H. lia.
Qed.

Lemma nodes_base (n : Z) : nodes (add_nodes_from empty (range1 n)) = range1 n.
Proof. apply nodes_add_nodes_from_empty, NoDup_range1. Qed.

Section Charger.

Variable split : String.string -> list String.string.
Variable strip : String.string -> String.string.
Variable int : String.string -> option Z.

Local Notation "'aretes'" := (charger_aretes split strip int).
Local Notation "'arete_de'" := (ligne_arete split strip int).

(** One step of the loop, read backwards. *)
Lemma charger_aretes_cons (l : String.string) (reste : list String.string)
    (G G' : Graph) :
  aretes (l :: reste) G = Lu G' ->
  (est_vide (strip l) = true /\ aretes reste G = Lu G') \/
  (exists a b, arete_de l a b /\ aretes reste (add_edge G a b) = Lu G').
Proof.
  simpl. destruct (est_vide (strip l)) eqn:Ev; [auto|].
  destruct (split l) as [|u [|v [|w [|? ?]]]] eqn:Es; try discriminate.
  destruct (int u) as [a|] eqn:Eu; [|discriminate].
  destruct (int v) as [b|] eqn:Evv; [|discriminate].
  intros H. right. exists a, b. split; [|assumption].
  split; [exact Ev|]. exists u, v, w. auto.
Qed.

Lemma arete_de_fun (l : String.string) (a b a' b' : node) :
  arete_de l a b -> arete_de l a' b' -> a = a' /\ b = b'.
Proof.
  intros (_ & u & v & w & Es & Eu & Ev) (_ & u' & v' & w' & Es' & Eu' & Ev').
  rewrite Es in Es'. injection Es' as <- <- <-. split; congruence.
Qed.

Lemma charger_aretes_spec (lignes : list String.string) (G G' : Graph) :
  aretes lignes G = Lu G' ->
  (wf G -> wf G') /\
  (forall l, In l lignes -> est_vide (strip l) = false ->
             exists a b, arete_de l a b) /\
  (forall a b, In b (adj G' a) <->
     In b (adj G a) \/
     exists l, In l lignes /\ (arete_de l a b \/ arete_de l b a)) /\
  exists extra,
    nodes G' = nodes G ++ extra /\
    forall x, In x extra <->
      ~ In x (nodes G) /\
      exists l y, In l lignes /\ (arete_de l x y \/ arete_de l y x).
Proof.
  revert G. induction lignes as [|l reste IH]; intros G H.
  - simpl in H. injection H as <-. split; [auto|]. split; [intros l []|].
    split.
    + intros a b. split; [auto|]. intros [H|(l & [] & _)]. exact H.
    + exists []. rewrite app_nil_r. split; [reflexivity|].
      intros x. split; [intros []|]. intros (_ & l & y & [] & _).
  - destruct (charger_aretes_cons _ _ _ _ H) as [[Ev Hr]|(a & b & Hab & Hr)].
    + destruct (IH _ Hr) as (I1 & I2 & I3 & extra & I4 & I5).
      split; [exact I1|]. split; [|split].
      * intros l' [<-|Hl] Hv; [congruence | auto].
      * intros x y. rewrite I3. split.
        -- intros [Hx|(l' & Hl & Hxy)]; [auto|].
           right. exists l'. split; [now right | assumption].
        -- intros [Hx|(l' & [<-|Hl] & Hxy)]; [auto | | eauto].
           destruct Hxy as [(Hv & _)|(Hv & _)]; congruence.
      * exists extra. split; [exact I4|]. intros x. rewrite I5. split.
        -- intros (Hx & l' & y & Hl & Hxy). split; [assumption|].
           exists l', y. split; [now right | assumption].
        -- intros (Hx & l' & y & [<-|Hl] & Hxy); [|eauto].
           destruct Hxy as [(Hv & _)|(Hv & _)]; congruence.
    + destruct (IH _ Hr) as (I1 & I2 & I3 & extra & I4 & I5).
      split; [intros W; apply I1; now apply wf_add_edge|].
      split; [|split].
      * intros l' [<-|Hl] Hv; [eauto | auto].
      * intros x y. rewrite I3, In_adj_add_edge_any. split.
        -- intros [[Hx|[[-> ->]|[-> ->]]]|(l' & Hl & Hxy)]; auto.
           ++ right. exists l. split; [now left | now left].
           ++ right. exists l. split; [now left | now right].
           ++ right. exists l'. split; [now right | assumption].
        -- intros [Hx|(l' & [<-|Hl] & Hxy)]; [auto | | eauto].
           destruct Hxy as [Hxy|Hxy];
             destruct (arete_de_fun _ _ _ _ _ Hab Hxy) as [-> ->]; auto.
      * destruct (nodes_add_edge_app G a b) as (e1 & E1 & H1).
        exists (e1 ++ extra). rewrite I4, E1, <- app_assoc.
        split; [reflexivity|]. intros x.
        rewrite in_app_iff, H1, I5, In_nodes_add_edge. split.
        -- intros [[Hx [->| ->]]|(Hx & l' & y & Hl & Hxy)].
           ++ split; [assumption|]. exists l, b. split; [now left|now left].
           ++ split; [assumption|]. exists l, a. split; [now left|now right].
           ++ split; [tauto|]. exists l', y. split; [now right|assumption].
        -- intros (Hx & l' & y & [<-|Hl] & Hxy).
           ++ left. split; [assumption|].
              destruct Hxy as [Hxy|Hxy];
                destruct (arete_de_fun _ _ _ _ _ Hab Hxy) as [E1' E2'];
                subst; auto.
           ++ destruct (Z.eq_dec x a) as [->|Ha]; [left; tauto|].
              destruct (Z.eq_dec x b) as [->|Hb]; [left; tauto|].
              right. split; [tauto|]. eauto.
Qed.

(** The loop goes through when every line that is not blank holds an
    edge. *)
Lemma charger_aretes_total (lignes : list String.string) (G : Graph) :
  (forall l, In l lignes -> est_vide (strip l) = false ->
             exists a b, arete_de l a b) ->
  exists G', aretes lignes G = Lu G'.
Proof.
  revert G. induction lignes as [|l reste IH]; intros G H; simpl; [eauto|].
  assert (Hr : forall l', In l' reste -> est_vide (strip l') = false ->
                 exists a b, arete_de l' a b)
    by (intros l' Hl; apply H; now right).
  destruct (est_vide (strip l)) eqn:Ev; [now apply IH|].
  destruct (H l (or_introl Logic.eq_refl) Ev)
    as (a & b & _ & u & v & w & -> & -> & ->).
  now apply IH.
Qed.

Lemma charger_aretes_ValueError (lignes : list String.string) (G : Graph)
    (e : erreur) :
  aretes lignes G = Echec e -> e = ValueError.
Proof.
  revert G. induction lignes as [|l reste IH]; intros G; simpl; [discriminate|].
  destruct (est_vide (strip l)); [apply IH|].
  destruct (split l) as [|u [|v [|w [|? ?]]]]; try (intros [= <-]; reflexivity).
  destruct (int u); [|intros [= <-]; reflexivity].
  destruct (int v); [apply IH | intros [= <-]; reflexivity].
Qed.

(** X8.  The load succeeds exactly when the first line has a first word
    that is an integer and every later line that is not blank has three
    words, the first two integers.  It raises [IndexError] exactly on a
    file without line or with a first line without word; any other
    failure is a [ValueError]. *)
Theorem charger_reussit_ssi (lignes : list String.string) :
  ((exists G, charger_graphe_depuis_txt split strip int lignes = Lu G) <->
   exists premiere reste n suite k,
     lignes = premiere :: reste /\ split premiere = n :: suite /\
     int n = Some k /\
     forall l, In l reste -> est_vide (strip l) = false ->
               exists a b, arete_de l a b) /\
  (charger_graphe_depuis_txt split strip int lignes = Echec IndexError <->
   lignes = [] \/
   exists premiere reste, lignes = premiere :: reste /\ split premiere = []).
Proof.
  split.
  - split.
    + intros (G & H). destruct lignes as [|premiere reste]; [discriminate|].
      simpl in H. destruct (split premiere) as [|n suite] eqn:Es;
        [discriminate|].
      destruct (int n) as [k|] eqn:En; [|discriminate].
      exists premiere, reste, n, suite, k. repeat split; auto.
      apply (charger_aretes_spec _ _ _ H).
    + intros (premiere & reste & n & suite & k & -> & Es & En & Hl).
      simpl. rewrite Es, En. now apply charger_aretes_total.
  - split.
    + destruct lignes as [|premiere reste]; [auto|]. simpl.
      destruct (split premiere) as [|n suite] eqn:Es; [eauto|].
      destruct (int n) as [k|]; [|discriminate].
      intros H. apply charger_aretes_ValueError in H. discriminate.
    + intros [->|(premiere & reste & -> & Es)]; [reflexivity|].
      simpl. now rewrite Es.
Qed.

(** X9.  A graph that is loaded is well formed, and its edges are those
    of the lines: [b] is a neighbour of [a] exactly when a line that is
    not blank reads [a b w] or [b a w]. *)
Theorem charger_graphe_aretes (lignes : list String.string) (G : Graph) :
  charger_graphe_depuis_txt split strip int lignes = Lu G ->
  wf G /\
  forall a b, In b (adj G a) <->
    exists l, In l (tl lignes) /\ (arete_de l a b \/ arete_de l b a).
Proof.
  intros H. destruct lignes as [|premiere reste]; [discriminate|].
  simpl in H. destruct (split premiere) as [|n suite]; [discriminate|].
  destruct (int n) as [k|]; [|discriminate].
  destruct (charger_aretes_spec _ _ _ H) as (I1 & _ & I3 & _).
  split; [apply I1, wf_add_nodes_from, wf_empty|].
  intros a b. rewrite I3, adj_add_nodes_from. simpl. tauto.
Qed.

(** X10.  The nodes of a loaded graph are 1 to [n], in order, for the
    [n] of the first line, followed by the end points of the lines that
    are not in that range: the count of the first line is not a bound. *)
Theorem charger_graphe_sommets (lignes : list String.string) (G : Graph) :
  charger_graphe_depuis_txt split strip int lignes = Lu G ->
  exists premiere n suite k extra,
    hd_error lignes = Some premiere /\ split premiere = n :: suite /\
    int n = Some k /\
    nodes G = range1 k ++ extra /\
    forall x, In x extra <->
      ~ (1 <= x <= k) /\
      exists l y, In l (tl lignes) /\ (arete_de l x y \/ arete_de l y x).
Proof.
  intros H. destruct lignes as [|premiere reste]; [discriminate|].
  simpl in H. destruct (split premiere) as [|n suite] eqn:Es; [discriminate|].
  destruct (int n) as [k|] eqn:En; [|discriminate].
  destruct (charger_aretes_spec _ _ _ H) as (_ & _ & _ & extra & I4 & I5).
  exists premiere, n, suite, k, extra. rewrite nodes_base in I4, I5.
  split; [reflexivity|]. split; [exact Es|]. split; [exact En|].
  split; [exact I4|].
  intros x. rewrite I5, In_range1. simpl. tauto.
Qed.

End Charger.

End FichiersFacts.

(* ===================================================================== *)
(** * Writing a tree and reading it back *)
(* ===================================================================== *)

Lemma sorted_pair_swap (a b : node) : sorted_pair (b, a) = sorted_pair (a, b).
Proof. unfold sorted_pair. simpl. f_equal; lia. Qed.

(** [G.edges()] lists each edge of the tree of a solution once. *)
Lemma length_edges_arbre (G : Graph) (sol : list edge) :
  wf G -> NoDup sol -> incl sol (all_edges G) ->
  length (edges (arbre G sol)) = length sol.
Proof.
  intros W Hnd Hincl.
  destruct (arbre_spec G sol W Hnd Hincl) as (WT & _ & _ & A).
  rewrite <- (length_map sorted_pair (edges (arbre G sol))).
  fold (all_edges (arbre G sol)). apply Nat.le_antisymm.
  - apply NoDup_incl_length; [now apply NoDup_all_edges|].
    intros e He. apply in_map_iff in He. destruct He as ([a b] & <- & Hab).
    destruct (In_edges _ a b WT Hab) as [_ Hb]. apply A in Hb.
    destruct Hb as [H|H].
    + now rewrite (all_edges_sorted G _ (Hincl _ H)).
    + rewrite <- sorted_pair_swap.
      now rewrite (all_edges_sorted G _ (Hincl _ H)).
  - apply NoDup_incl_length; [assumption|].
    intros [a b] He.
    assert (Hb : In b (adj (arbre G sol) a)) by (apply A; now left).
    rewrite <- (all_edges_sorted G _ (Hincl _ He)).
    destruct (edges_complete _ a b WT Hb) as [H|H].
    + now apply (in_map sorted_pair) in H.
    + apply (in_map sorted_pair) in H. now rewrite sorted_pair_swap in H.
Qed.

Module AllerRetour.

Import Fichiers FichiersFacts.

Section AllerRetour.

Variable split : String.string -> list String.string.
Variable strip : String.string -> String.string.
Variable int : String.string -> option Z.

(** X11.  Reading back the file written for a graph whose nodes are 1 to
    [n] gives a graph with the same nodes and the same edges, as soon as
    each line written reads as the integers it was written from. *)
Theorem recharger_graphe_sauvegarde (T : Graph) (n m : Z) :
  wf T -> nodes T = range1 n ->
  (exists suite, split (ligne (str n) (str m)) = str n :: suite) ->
  int (str n) = Some n ->
  (forall e, In e (edges T) ->
     ligne_arete split strip int (ligne (str (fst e)) (str (snd e)))
       (fst e) (snd e)) ->
  exists R,
    charger_graphe_depuis_txt split strip int (sauvegarder_graphe T n m)
      = Lu R /\
    wf R /\ nodes R = nodes T /\
    forall a b, In b (adj R a) <-> In b (adj T a).
Proof.
  intros W HN (suite & Es) En Hl.
  unfold sauvegarder_graphe. cbn [charger_graphe_depuis_txt].
  rewrite Es, En.
  set (lignes := map (fun e => ligne (str (fst e)) (str (snd e))) (edges T)).
  assert (Hlignes : forall l, In l lignes ->
            exists e, In e (edges T) /\
                      ligne_arete split strip int l (fst e) (snd e)).
  { intros l Hin. apply in_map_iff in Hin. destruct Hin as (e & <- & He).
    eauto. }
  destruct (charger_aretes_total split strip int lignes
              (add_nodes_from empty (range1 n))) as (R & HR).
  { intros l Hin _. destruct (Hlignes l Hin) as (e & _ & He). eauto. }
  exists R. split; [exact HR|].
  destruct (charger_aretes_spec _ _ _ _ _ _ HR) as (I1 & _ & I3 & extra & I4 & I5).
  assert (Hadj : forall a b, In b (adj R a) <-> In b (adj T a)).
  { intros a b. rewrite I3, adj_add_nodes_from. simpl. split.
    - intros [[]|(l & Hin & Hab)].
      destruct (Hlignes l Hin) as ([u v] & He & Huv). simpl in Huv.
      destruct (In_edges T u v W He) as [_ Hv].
      destruct Hab as [Hab|Hab];
        destruct (arete_de_fun _ _ _ _ _ _ _ _ Huv Hab) as [-> ->];
        [assumption | now apply (wf_sym _ W)].
    - intros Hb. right.
      destruct (edges_complete T a b W Hb) as [He|He].
      + exists (ligne (str a) (str b)). split.
        * apply (in_map (fun e => ligne (str (fst e)) (str (snd e))) _ _ He).
        * left. apply (Hl _ He).
      + exists (ligne (str b) (str a)). split.
        * apply (in_map (fun e => ligne (str (fst e)) (str (snd e))) _ _ He).
        * right. apply (Hl _ He). }
  split; [apply I1, wf_add_nodes_from, wf_empty|]. split; [|exact Hadj].
  rewrite nodes_base in I4, I5. rewrite I4, HN.
  destruct extra as [|x extra]; [now rewrite app_nil_r|].
  exfalso. destruct (proj1 (I5 x) (or_introl Logic.eq_refl))
    as (Hx & l & y & Hin & Hxy).
  apply Hx. rewrite <- HN.
  destruct (Hlignes l Hin) as ([u v] & He & Huv). simpl in Huv.
  destruct (In_edges T u v W He) as [Hu Hv]. apply (wf_closed _ W) in Hv.
  destruct Hxy as [Hxy|Hxy];
    destruct (arete_de_fun _ _ _ _ _ _ _ _ Huv Hxy) as [E1 E2]; subst;
    assumption.
Qed.

End AllerRetour.

End AllerRetour.

(* ===================================================================== *)
(** * One file, from the load to the solution written *)
(* ===================================================================== *)

Module TraiterFacts.

Import Fichiers FichiersFacts.

Section Traiter.

Variable split : String.string -> list String.string.
Variable strip : String.string -> String.string.
Variable int : String.string -> option Z.
Variable solver : nat -> LpProblem -> Z * (var -> Z).
Variable nx_bridges : Graph -> list edge.
Variable nx_cycle_basis : Graph -> list (list node).

Lemma charger_graphe_wf (lignes : list String.string) (G : Graph) :
  charger_graphe_depuis_txt split strip int lignes = Lu G -> wf G.
Proof.
  intros H. destruct lignes as [|premiere reste]; [discriminate|].
  simpl in H. destruct (split premiere) as [|n suite]; [discriminate|].
  destruct (int n) as [k|]; [|discriminate].
  destruct (charger_aretes_spec _ _ _ _ _ _ H) as (I1 & _).
  apply I1, wf_add_nodes_from, wf_empty.
Qed.

(** What [resoudre_mbvst] returns as a tree is built on a solution that
    is not empty, of distinct edges of the graph. *)
Lemma arbre_retourne (fuel : nat) (G T : Graph) :
  wf G ->
  resoudre_mbvst solver nx_bridges nx_cycle_basis fuel G = Some (Ok (Some T)) ->
  exists sol, T = arbre G sol /\ sol <> [] /\ NoDup sol /\
              incl sol (all_edges G) /\
              (solveur_fiable solver ->
               Z.of_nat (length sol) = number_of_nodes G - 1).
Proof.
  intros W H. unfold resoudre_mbvst, resoudre_mbvst_avec in H.
  destruct (boucle_Ok _ _ _ _ _ _ _ _ _ H) as (i & s & _ & _ & Ht).
  destruct (tour_Retour_Some _ _ _ _ _ _ _ _ Ht) as (sol & Hsol & Hne & -> & _).
  exists sol. split; [reflexivity|]. split; [assumption|].
  split; [apply (sol_NoDup _ _ _ _ _ _ _ _ W Hsol)|].
  split; [apply (sol_incl _ _ _ _ _ _ _ _ Hsol)|].
  intros Hf. apply (sol_length _ _ Hf _ _ _ _ _ _ Hsol).
Qed.

Lemma vrai_arbre (G : Graph) (sol : list edge) :
  wf G -> sol <> [] -> NoDup sol -> incl sol (all_edges G) ->
  vrai (Some (arbre G sol)) = true.
Proof.
  intros W Hne Hnd Hincl.
  destruct (arbre_spec G sol W Hnd Hincl) as (_ & NT & _).
  destruct sol as [|e sol]; [congruence|].
  destruct (In_all_edges G e W (Hincl e (or_introl Logic.eq_refl)))
    as (Hn & _).
  rewrite <- NT in Hn. unfold vrai, nodes in *.
  destruct (arbre G (e :: sol)); [destruct Hn | reflexivity].
Qed.

(** X12.  The failure of the resolution is reported for a file exactly
    when its graph is loaded and [resoudre_mbvst] returns [None]: a tree
    that is returned always counts as true, since it has a node. *)
Theorem traiter_echec_ssi (fuel : nat) (lignes : list String.string) :
  traiter split strip int solver nx_bridges nx_cycle_basis fuel lignes
    = Some Echec_resolution <->
  exists G, charger_graphe_depuis_txt split strip int lignes = Lu G /\
            resoudre_mbvst solver nx_bridges nx_cycle_basis fuel G
              = Some (Ok None).
Proof.
  unfold traiter. split.
  - destruct (charger_graphe_depuis_txt split strip int lignes)
      as [G|e] eqn:HG; [|discriminate].
    pose proof (charger_graphe_wf _ _ HG) as W.
    destruct (resoudre_mbvst solver nx_bridges nx_cycle_basis fuel G)
      as [[[T|]|e]|] eqn:HR; try discriminate.
    + destruct (arbre_retourne _ _ _ W HR) as (sol & -> & Hne & Hnd & Hincl & _).
      rewrite (vrai_arbre G sol W Hne Hnd Hincl). discriminate.
    + intros _. exists G. split; [reflexivity | exact HR].
  - intros (G & -> & ->). reflexivity.
Qed.

(** X13.  With a reliable solver, the file written for a solution has as
    many lines as the graph has nodes: a first line with the number [n]
    of nodes and [n - 1], then one line for each edge of the tree, each
    an edge of the graph loaded; the number printed is the number of
    nodes of degree above 2 in the tree. *)
Theorem traiter_fichier_ecrit
    (fuel : nat) (lignes fichier : list String.string) (nb : Z) :
  solveur_fiable solver ->
  traiter split strip int solver nx_bridges nx_cycle_basis fuel lignes
    = Some (Ecrit fichier nb) ->
  exists G T,
    charger_graphe_depuis_txt split strip int lignes = Lu G /\
    resoudre_mbvst solver nx_bridges nx_cycle_basis fuel G
      = Some (Ok (Some T)) /\
    length fichier = length (nodes G) /\
    hd_error fichier
      = Some (ligne (str (number_of_nodes G)) (str (number_of_nodes G - 1))) /\
    (forall l, In l (tl fichier) ->
       exists u v, l = ligne (str u) (str v) /\ In v (adj G u)) /\
    nb = nb_branch T.
Proof.
  intros Hf. unfold traiter.
  destruct (charger_graphe_depuis_txt split strip int lignes)
    as [G|e] eqn:HG; [|discriminate].
  pose proof (charger_graphe_wf _ _ HG) as W.
  destruct (resoudre_mbvst solver nx_bridges nx_cycle_basis fuel G)
    as [[[T|]|e]|] eqn:HR; try discriminate.
  destruct (arbre_retourne _ _ _ W HR) as (sol & -> & Hne & Hnd & Hincl & Hlen).
  specialize (Hlen Hf).
  rewrite (vrai_arbre G sol W Hne Hnd Hincl). intros [= <- <-].
  destruct (arbre_spec G sol W Hnd Hincl) as (WT & NT & DT & AT).
  exists G, (arbre G sol). split; [reflexivity|]. split; [exact HR|].
  assert (Hnb : number_of_edges (arbre G sol) = number_of_nodes G - 1).
  { unfold number_of_edges. rewrite DT, <- Hlen.
    rewrite Z.mul_comm. apply Z.div_mul. lia. }
  unfold sauvegarder_graphe. split; [|split; [|split; [|reflexivity]]].
  - pose proof (length_edges_arbre G sol W Hnd Hincl) as HL.
    cbn [length]. rewrite length_map.
    unfold number_of_nodes in Hlen. unfold nodes. rewrite length_map.
    unfold edge, node in *. lia.
  - cbn [hd_error]. now rewrite Hnb.
  - cbn [tl]. intros l Hl. apply in_map_iff in Hl.
    destruct Hl as ([u v] & <- & He). exists u, v. split; [reflexivity|].
    destruct (In_edges _ u v WT He) as [_ Hv]. apply AT in Hv.
    destruct Hv as [Hv|Hv];
      destruct (In_all_edges G _ W (Hincl _ Hv)) as (_ & _ & Ha & _);
      simpl in Ha; [assumption | now apply (wf_sym _ W)].
Qed.

End Traiter.

End TraiterFacts.

(* ===================================================================== *)
(** * The files, run on the scenarios *)
(* ===================================================================== *)

Module FichiersExemples.

Import Fichiers FichiersFacts AllerRetour TraiterFacts.

Example hors_charge :
  charger_graphe_depuis_txt mots sans_blancs entier fichier_hors = Lu G_hors.
Proof. vm_compute. reflexivity. Qed.

Example theta_charge :
  charger_graphe_depuis_txt mots sans_blancs entier fichier_theta = Lu G_theta.
Proof. vm_compute. reflexivity. Qed.

Example theta_traite :
  traiter mots sans_blancs entier (solveur_propose valeur_theta) ponts_theta
    cycles_theta 2 fichier_theta
  = Some (Ecrit (sauvegarder_graphe (arbre G_theta chemin_theta) 5 4) 0).
Proof. vm_compute. reflexivity. Qed.

Example theta_arbre_noeuds : nodes (arbre G_theta chemin_theta) = range1 5.
Proof. vm_compute. reflexivity. Qed.

Example theta_entete :
  mots (ligne (str 5) (str 4)) = [str 5; str 4; str 0].
Proof. vm_compute. reflexivity. Qed.

Example theta_lignes (e : edge) :
  In e (edges (arbre G_theta chemin_theta)) ->
  ligne_arete mots sans_blancs entier (ligne (str (fst e)) (str (snd e)))
    (fst e) (snd e).
Proof.
  intros He. vm_compute in He.
  repeat (destruct He as [<-|He];
          [split; [vm_compute; reflexivity|];
           eexists _, _, (str 0);
           split; [vm_compute; reflexivity|];
           split; vm_compute; reflexivity|]).
  destruct He.
Qed.

Lemma charger_graphe_aretes_witness :
  wf G_hors /\
  forall a b, In b (adj G_hors a) <->
    exists l, In l (tl fichier_hors) /\
              (ligne_arete mots sans_blancs entier l a b \/
               ligne_arete mots sans_blancs entier l b a).
Proof.
  exact (charger_graphe_aretes mots sans_blancs entier fichier_hors G_hors
           hors_charge).
Defined.

Lemma charger_graphe_sommets_witness :
  exists premiere n suite k extra,
    hd_error fichier_hors = Some premiere /\ mots premiere = n :: suite /\
    entier n = Some k /\
    nodes G_hors = range1 k ++ extra /\
    forall x, In x extra <->
      ~ (1 <= x <= k) /\
      exists l y, In l (tl fichier_hors) /\
                  (ligne_arete mots sans_blancs entier l x y \/
                   ligne_arete mots sans_blancs entier l y x).
Proof.
  exact (charger_graphe_sommets mots sans_blancs entier fichier_hors G_hors
           hors_charge).
Defined.

Lemma recharger_graphe_sauvegarde_witness :
  let T := arbre G_theta chemin_theta in
  exists R,
    charger_graphe_depuis_txt mots sans_blancs entier
      (sauvegarder_graphe T 5 4) = Lu R /\
    wf R /\ nodes R = nodes T /\
    forall a b, In b (adj R a) <-> In b (adj T a).
Proof.
  refine (recharger_graphe_sauvegarde mots sans_blancs entier
            (arbre G_theta chemin_theta) 5 4 _ theta_arbre_noeuds
            (ex_intro _ [str 4; str 0] theta_entete) Logic.eq_refl
            theta_lignes).
  apply wf_add_edges_from, wf_add_nodes_from, wf_empty.
Defined.

Lemma traiter_fichier_ecrit_witness :
  exists G T,
    charger_graphe_depuis_txt mots sans_blancs entier fichier_theta = Lu G /\
    resoudre_mbvst (solveur_propose valeur_theta) ponts_theta cycles_theta
      2 G = Some (Ok (Some T)) /\
    length (sauvegarder_graphe (arbre G_theta chemin_theta) 5 4)
      = length (nodes G) /\
    hd_error (sauvegarder_graphe (arbre G_theta chemin_theta) 5 4)
      = Some (ligne (str (number_of_nodes G)) (str (number_of_nodes G - 1))) /\
    (forall l, In l (tl (sauvegarder_graphe (arbre G_theta chemin_theta) 5 4)) ->
       exists u v, l = ligne (str u) (str v) /\ In v (adj G u)) /\
    0 = nb_branch T.
Proof.
  exact (traiter_fichier_ecrit mots sans_blancs entier
           (solveur_propose valeur_theta) ponts_theta cycles_theta 2
           fichier_theta _ 0 (solveur_propose_fiable valeur_theta)
           theta_traite).
Defined.

End FichiersExemples.
